(** * js-maps: [UnsortedMap] and [SortedMap]

    A shallow embedding of [src/js-maps.ts].

    The two classes keep their entries in two JavaScript arrays,
    [this.keys] and [this.values], which the methods update in place, and
    [map] builds its result through [this.constructor].  Arrays therefore
    live in a store, objects hold references to them, and a method is a
    function on stores.  The constructor of [UnsortedMap] keeps the arrays it
    is given, so an object can share an array with its caller, and its
    [keys] and [values] can be one array.  Keys are compared with [===] and
    the values of a [SortedMap] with [<] and [>]; both are taken from type
    classes, with IEEE 754 numbers, and strings and numbers together, as
    instances. *)

From Stdlib Require Import ZArith Lia.
From Stdlib Require Import Floats Ascii.
From stdpp Require Import base option list gmap strings.

(** ** JavaScript arrays

    An array is a list of slots.  A slot is [Some x] when it holds the
    element [x], and [None] when it is empty or holds [undefined]; the two
    are not told apart.  Reading either gives [undefined], [indexOf] finds
    neither when it looks for an element, and [Array.prototype.map] leaves
    a slot that is [None] as it is.  The methods make no such slot in a
    container whose two arrays have the same length. *)

Abbreviation array A := (list (option A)).

(** The array literal [[x0, x1, ...]]. *)
Definition arr {A : Type} (l : list A) : array A := Some <$> l.

(** [l[i]] for an index that is a natural number. *)
Definition slot {A : Type} (l : array A) (i : nat) : option A :=
  match l !! i with
  | Some s => s
  | None => None
  end.

(** [l[i]] for any integer: a negative index names no element. *)
Definition at_index {A : Type} (l : array A) (i : Z) : option A :=
  if (i <? 0)%Z then None else slot l (Z.to_nat i).

(** [l[i] = x].  Inside the array the slot is overwritten; at or past the
    end the array grows to length [i + 1], the slots in between empty. *)
Definition assign {A : Type} (l : array A) (i : nat) (x : option A) : array A :=
  if decide (i < length l) then <[i := x]> l
  else l ++ replicate (i - length l) None ++ [x].

(** [l.push(x)]. *)
Definition push {A : Type} (l : array A) (x : A) : array A := l ++ [Some x].

(** [l.splice(i, 1)]: nothing is removed when [i] is past the end. *)
Definition splice {A : Type} (l : array A) (i : nat) : array A := delete i l.

(** [l.map((x, i) => f(x, i))]: empty slots are skipped and stay empty. *)
Definition array_map {A B : Type} (f : A → nat → B) (l : array A) : array B :=
  imap (λ i s, (λ x, f x i) <$> s) l.

(** ** Operators

    [indexOf] compares with [===].  On strings that is equality; on numbers
    it is IEEE equality, under which NaN differs from itself and the two
    zeros are equal; a string and a number are never [===]. *)

Class StrictEq (A : Type) := strict_eq : A → A → bool.

Class StrictEqLaws (A : Type) `{StrictEq A} : Prop := {
  strict_eq_sym (a b : A) : strict_eq a b = true → strict_eq b a = true;
  strict_eq_trans (a b c : A) :
    strict_eq a b = true → strict_eq b c = true → strict_eq a c = true
}.

#[export] Instance float_StrictEq : StrictEq float := PrimFloat.eqb.

(** [ValueType extends number]: the values of a [SortedMap] are compared
    with [<] (in the constructor) and [>] (in [set]); [>=] is the order the
    container is meant to keep. *)

Class Number (V : Type) := {
  js_lt : V → V → bool;
  js_gt : V → V → bool;
  js_ge : V → V → bool
}.

(** IEEE 754 binary64, the numbers of JavaScript. *)
#[export] Instance float_Number : Number float :=
  {| js_lt := PrimFloat.ltb;
   js_gt := λ a b, PrimFloat.ltb b a;
   js_ge := λ a b, PrimFloat.leb b a |}.

Definition NaN : float := PrimFloat.nan.

(** The laws of [>] and [>=] that hold of every number, NaN included. *)
Class NumberLaws (V : Type) `{Number V} : Prop := {
  js_gt_ge (a b : V) : js_gt a b = true → js_ge a b = true;
  js_ge_trans (a b c : V) :
    js_ge a b = true → js_ge b c = true → js_ge a c = true;
  js_ge_gt_trans (a b c : V) :
    js_ge a b = true → js_gt b c = true → js_gt a c = true
}.

(** Two numbers are comparable when one of [a > b], [b >= a] holds; NaN is
    comparable with nothing. *)
Definition comparable {V : Type} `{Number V} (a b : V) : Prop :=
  js_gt a b = false → js_ge b a = true.

(** A comparison with [undefined] is false. *)
Definition slot_lt {V : Type} `{Number V} (a b : option V) : bool :=
  match a, b with
  | Some x, Some y => js_lt x y
  | _, _ => false
  end.

Definition slot_gt {V : Type} `{Number V} (a : option V) (v : V) : bool :=
  match a with
  | Some x => js_gt x v
  | None => false
  end.

(** *** Strings and numbers together

    The values of the scenarios: numbers, and strings that begin with a
    small letter.  Such a string does not read as a number (its conversion
    to a number is NaN), so [<], [>] and [>=] between it and a number are
    false; two strings are compared code unit by code unit. *)

Definition word (s : string) : bool :=
  match s with
  | String c _ => Ascii.leb "a"%char c && Ascii.leb c "z"%char
  | EmptyString => false
  end.

Inductive value :=
  | Str (s : string) (w : word s = true)
  | Num (x : float).

(** The string literal ["..."]. *)
Abbreviation str s := (Str s eq_refl).

#[export] Instance value_StrictEq : StrictEq value := λ a b,
  match a, b with
  | Str s _, Str t _ => String.eqb s t
  | Num x, Num y => PrimFloat.eqb x y
  | _, _ => false
  end.

#[export] Instance value_Number : Number value :=
  {| js_lt := λ a b,
       match a, b with
       | Str s _, Str t _ => String.ltb s t
       | Num x, Num y => PrimFloat.ltb x y
       | _, _ => false
       end;
     js_gt := λ a b,
       match a, b with
       | Str s _, Str t _ => String.ltb t s
       | Num x, Num y => PrimFloat.ltb y x
       | _, _ => false
       end;
     js_ge := λ a b,
       match a, b with
       | Str s _, Str t _ => negb (String.ltb s t)
       | Num x, Num y => PrimFloat.leb y x
       | _, _ => false
       end |}.

(** A number other than NaN. *)
Definition number (v : value) : Prop :=
  match v with
  | Num x => is_nan x = false
  | Str _ _ => False
  end.

Section IndexOf.
Context {A : Type} `{StrictEq A}.

Definition slot_is (x : A) (s : option A) : bool :=
  match s with
  | Some y => strict_eq y x
  | None => false
  end.

Fixpoint firstIndex (l : array A) (x : A) : option nat :=
  match l with
  | [] => None
  | s :: l' => if slot_is x s then Some 0 else S <$> firstIndex l' x
  end.

(** [l.indexOf(x)]: the first index whose element is [=== x], or [-1]. *)
Definition indexOf (l : array A) (x : A) : Z :=
  match firstIndex l x with
  | Some i => Z.of_nat i
  | None => (-1)%Z
  end.
End IndexOf.

(** ** The store and the objects

    An array is created by an array literal, by [concat] or by
    [Array.prototype.map], and the store holds it under a reference.  Types
    are gone at run time: the store holds the values of the language at one
    type [E], keys and values alike, and an array can be the [keys] of an
    object, its [values], or both. *)

Abbreviation loc := nat (only parsing).

Inductive class := UnsortedMap | SortedMap.

(** An object: [this.constructor], and the two arrays it refers to. *)
Record object := {
  constructor : class;
  keys : loc;
  values : loc
}.

(** The store: the arrays, by reference. *)
Abbreviation heap E := (gmap loc (array E)).

Section Maps.
Context {E : Type} `{StrictEq E} `{Number E}.

(** The array behind a reference. *)
Definition read (r : loc) (h : heap E) : array E := default [] (h !! r).

(** An update of the array behind a reference. *)
Definition store (r : loc) (a : array E) (h : heap E) : heap E := <[r := a]> h.

(** [[...]], [concat] and [map] create a new array. *)
Definition alloc (a : array E) (h : heap E) : loc * heap E :=
  let r := fresh (dom h) in (r, <[r := a]> h).

(** The contents of [this.keys] and of [this.values]. *)
Definition this_keys (this : object) (h : heap E) : array E :=
  read (keys this) h.

Definition this_values (this : object) (h : heap E) : array E :=
  read (values this) h.

(** A parameter with the default [[]]: an omitted argument is a new empty
    array. *)
Definition default_array (arg : option loc) (h : heap E) : loc * heap E :=
  match arg with
  | Some r => (r, h)
  | None => alloc [] h
  end.

(** *** UnsortedMap *)

(** [constructor(keys = [], values = [])] of [UnsortedMap]; [cls] is the
    class being instantiated ([SortedMap] when reached through [super]).
    The object keeps the caller's arrays, not copies. *)
Definition UnsortedMap_constructor (cls : class) (keys values : option loc)
    (h : heap E) : object * heap E :=
  let '(keys, h) := default_array keys h in
  let '(values, h) := default_array values h in
  ({| constructor := cls; keys := keys; values := values |}, h).

Definition UnsortedMap_get (this : object) (key : E) (h : heap E) : option E :=
  let index := indexOf (this_keys this h) key in
  at_index (this_values this h) index.

(** Every statement reads the store that the statement before it left. *)
Definition UnsortedMap_set (this : object) (setKey setValue : E)
    (h : heap E) : heap E :=
  let index := indexOf (this_keys this h) setKey in
  if (index =? -1)%Z then
    let h := store (keys this) (push (this_keys this h) setKey) h in
    store (values this) (push (this_values this h) setValue) h
  else
    let h := store (keys this)
               (assign (this_keys this h) (Z.to_nat index) (Some setKey)) h in
    store (values this)
      (assign (this_values this h) (Z.to_nat index) (Some setValue)) h.

Definition UnsortedMap_has (this : object) (key : E) (h : heap E) : bool :=
  (indexOf (this_keys this h) key >? -1)%Z.

(** *** SortedMap *)

(** The body of the two nested loops of the constructor, on its parameters
    [keys] and [values]. *)
Definition swap_if_less (keys values : loc) (i j : nat) (h : heap E) : heap E :=
  if slot_lt (slot (read values h) i) (slot (read values h) j) then
    let tempValue := slot (read values h) j in
    let h := store values (assign (read values h) j (slot (read values h) i)) h in
    let h := store values (assign (read values h) i tempValue) h in
    let tempKey := slot (read keys h) j in
    let h := store keys (assign (read keys h) j (slot (read keys h) i)) h in
    let h := store keys (assign (read keys h) i tempKey) h in
    h
  else h.

(** [n] rounds of the inner loop, from [j] on. *)
Fixpoint sort_inner (keys values : loc) (n i j : nat) (h : heap E) : heap E :=
  match n with
  | 0 => h
  | S n' => sort_inner keys values n' i (S j) (swap_if_less keys values i j h)
  end.

(** [n] rounds of the outer loop, from [i] on; the inner loop runs [j]
    from [i + 1] up to [values.length]. *)
Fixpoint sort_outer (keys values : loc) (n i : nat) (h : heap E) : heap E :=
  match n with
  | 0 => h
  | S n' =>
      sort_outer keys values n' (S i)
        (sort_inner keys values (length (read values h) - S i) i (S i) h)
  end.

(** [constructor(keys = [], values = [])] of [SortedMap].  Arrays are
    truthy, so the guard [!!keys && !!values] holds; the arguments are
    sorted in place, and [super()] is called without them. *)
Definition SortedMap_constructor (keys values : option loc) (h : heap E)
    : object * heap E :=
  let '(keys, h) := default_array keys h in
  let '(values, h) := default_array values h in
  let h := sort_outer keys values (length (read values h)) 0 h in
  UnsortedMap_constructor SortedMap None None h.

(** The loop of [set], entered with [i = this.values.length].  It always
    leaves through [break], at [i = 0] at the latest. *)
Fixpoint insert_loop (this : object) (setKey setValue : E) (i : nat)
    (h : heap E) : heap E :=
  match i with
  | 0 =>
      let h := store (keys this) (assign (this_keys this h) 0 (Some setKey)) h in
      store (values this) (assign (this_values this h) 0 (Some setValue)) h
  | S i' =>
      if slot_gt (slot (this_values this h) i') setValue then
        let h := store (keys this)
                   (assign (this_keys this h) i (Some setKey)) h in
        store (values this) (assign (this_values this h) i (Some setValue)) h
      else
        let h := store (keys this)
                   (assign (this_keys this h) i (slot (this_keys this h) i')) h in
        let h := store (values this)
                   (assign (this_values this h) i
                      (slot (this_values this h) i')) h in
        insert_loop this setKey setValue i' h
  end.

Definition SortedMap_set (this : object) (setKey setValue : E)
    (h : heap E) : heap E :=
  let index := indexOf (this_keys this h) setKey in
  let h :=
    if (index >? -1)%Z then
      let h := store (keys this)
                 (splice (this_keys this h) (Z.to_nat index)) h in
      store (values this)
        (splice (this_values this h) (Z.to_nat index)) h
    else h in
  insert_loop this setKey setValue (length (this_values this h)) h.

(** *** Calls through the object *)

(** [new this.constructor(keys, values)]. *)
Definition new (cls : class) (keys values : option loc) (h : heap E)
    : object * heap E :=
  match cls with
  | UnsortedMap => UnsortedMap_constructor UnsortedMap keys values h
  | SortedMap => SortedMap_constructor keys values h
  end.

(** [this.set(key, value)]: [SortedMap] overrides [set]. *)
Definition set (this : object) (key value : E) (h : heap E) : heap E :=
  match constructor this with
  | UnsortedMap => UnsortedMap_set this key value h
  | SortedMap => SortedMap_set this key value h
  end.

(** The methods that [SortedMap] inherits. *)
Definition get : object → E → heap E → option E := UnsortedMap_get.
Definition has : object → E → heap E → bool := UnsortedMap_has.

(** [map(callback)].  [concat] and [Array.prototype.map] each make a new
    array.  [this.values[i]] is [undefined] where [values] is shorter than
    [keys], so the callback takes an optional value; it is a function of its
    arguments and does not touch the store. *)
Definition map (this : object) (callback : E → option E → E) (h : heap E)
    : object * heap E :=
  let '(keys, h1) := alloc (this_keys this h) h in
  let '(values, h2) :=
    alloc (array_map (λ key i, callback key (slot (this_values this h) i))
             (this_keys this h))
          h1 in
  new (constructor this) (Some keys) (Some values) h2.

Definition upsert (this : object) (setKey : E) (callback : option E → E)
    (h : heap E) : heap E :=
  let value := get this setKey h in
  set this setKey (callback value) h.

(** A sequence of calls [this.set(k1, v1).set(k2, v2)...]. *)
Definition sets (this : object) (ops : list (E * E)) (h : heap E) : heap E :=
  foldl (λ h kv, set this kv.1 kv.2 h) h ops.

Definition empty_heap : heap E := ∅.

(** The two arrays of the receiver. *)
Definition arrays (this : object) (h : heap E) : array E * array E :=
  (this_keys this h, this_values this h).

(** [this.keys] and [this.values] are two arrays, not one array. *)
Definition two_arrays (this : object) : Prop := keys this ≠ values this.

(** An object whose arrays exist in the store. *)
Definition allocated (this : object) (h : heap E) : Prop :=
  keys this ∈ dom h ∧ values this ∈ dom h.

(** Every array of [h] is in [h'] what it was in [h]. *)
Definition preserves (h h' : heap E) : Prop :=
  ∀ r, r ∈ dom h → h' !! r = h !! r.

(** [keys] and [values] have the same length. *)
Definition equal_length (this : object) (h : heap E) : Prop :=
  length (this_keys this h) = length (this_values this h).

(** What [this.map(callback)] is expected to do, in the store [h]: the
    receiver keeps its arrays, and the result is of the same class, with the
    same keys and with [callback(keys[i], values[i])] at every index. *)
Definition map_keeps_keys (this : object) (callback : E → option E → E)
    (h : heap E) : Prop :=
  let '(result, h') := map this callback h in
  arrays this h' = arrays this h ∧
  constructor result = constructor this ∧
  this_keys result h' = this_keys this h ∧
  ∀ i key, this_keys this h !! i = Some (Some key) →
    this_values result h' !! i
    = Some (Some (callback key (slot (this_values this h) i))).
End Maps.


(** ** The methods on two arrays

    When [this.keys] and [this.values] are two arrays, [set] and the loops
    of the constructor act on the pair of them as the next functions do
    ([set_store] and [sort_outer_two_arrays] below). *)

Section TwoArrays.
Context {K V : Type} `{StrictEq K} `{Number V}.

Definition UnsortedMap_set_arrays (kv : array K * array V) (setKey : K)
    (setValue : V) : array K * array V :=
  match firstIndex kv.1 setKey with
  | None => (push kv.1 setKey, push kv.2 setValue)
  | Some index =>
      (assign kv.1 index (Some setKey), assign kv.2 index (Some setValue))
  end.

Definition remove_key (kv : array K * array V) (setKey : K)
    : array K * array V :=
  match firstIndex kv.1 setKey with
  | Some index => (splice kv.1 index, splice kv.2 index)
  | None => kv
  end.

Fixpoint insert_loop_arrays (setKey : K) (setValue : V) (i : nat)
    (kv : array K * array V) : array K * array V :=
  let '(keys, values) := kv in
  match i with
  | 0 => (assign keys 0 (Some setKey), assign values 0 (Some setValue))
  | S i' =>
      if slot_gt (slot values i') setValue then
        (assign keys i (Some setKey), assign values i (Some setValue))
      else
        insert_loop_arrays setKey setValue i'
          (assign keys i (slot keys i'), assign values i (slot values i'))
  end.

Definition SortedMap_set_arrays (kv : array K * array V) (setKey : K)
    (setValue : V) : array K * array V :=
  let kv := remove_key kv setKey in
  insert_loop_arrays setKey setValue (length kv.2) kv.

Definition set_arrays (cls : class) (kv : array K * array V) (key : K)
    (value : V) : array K * array V :=
  match cls with
  | UnsortedMap => UnsortedMap_set_arrays kv key value
  | SortedMap => SortedMap_set_arrays kv key value
  end.

Definition swap_if_less_arrays (i j : nat) (kv : array K * array V)
    : array K * array V :=
  let '(keys, values) := kv in
  if slot_lt (slot values i) (slot values j) then
    let tempValue := slot values j in
    let values := assign values j (slot values i) in
    let values := assign values i tempValue in
    let tempKey := slot keys j in
    let keys := assign keys j (slot keys i) in
    let keys := assign keys i tempKey in
    (keys, values)
  else kv.

Fixpoint sort_inner_arrays (n i j : nat) (kv : array K * array V)
    : array K * array V :=
  match n with
  | 0 => kv
  | S n' => sort_inner_arrays n' i (S j) (swap_if_less_arrays i j kv)
  end.

Fixpoint sort_outer_arrays (n i : nat) (kv : array K * array V)
    : array K * array V :=
  match n with
  | 0 => kv
  | S n' =>
      sort_outer_arrays n' (S i)
        (sort_inner_arrays (length kv.2 - S i) i (S i) kv)
  end.

Definition sort_arrays (kv : array K * array V) : array K * array V :=
  sort_outer_arrays (length kv.2) 0 kv.

(** What [get] and [has] read in the two arrays. *)
Definition lookup_arrays (kv : array K * array V) (x : K) : option V :=
  match firstIndex kv.1 x with
  | Some i => slot kv.2 i
  | None => None
  end.

Definition found_arrays (kv : array K * array V) (x : K) : bool :=
  match firstIndex kv.1 x with
  | Some _ => true
  | None => false
  end.

(** No two slots of a key array hold strictly equal keys. *)
Definition distinct_keys (ks : array K) : Prop :=
  ∀ i j a b, ks !! i = Some (Some a) → ks !! j = Some (Some b) →
    strict_eq a b = true → i = j.

(** [values[i] >= values[i + 1]] at every adjacent pair of indices. *)
Definition descending (vs : array V) : Prop :=
  ∀ i, S i < length vs →
    ∃ a b, slot vs i = Some a ∧ slot vs (S i) = Some b ∧ js_ge a b = true.

(** The values are all there, all in [P], and each is [>=] every later
    one. *)
Definition sorted_values (P : V → Prop) (vs : array V) : Prop :=
  ∃ l, vs = arr l ∧ Forall P l ∧
    ∀ i j a b, i < j → l !! i = Some a → l !! j = Some b → js_ge a b = true.
End TwoArrays.

(** ** Callbacks of the scenarios *)

(** Two callbacks for [upsert] and [map]:
    [v => typeof v === "number" ? v + 1 : 1] and
    [v => typeof v === "number" ? v * 2 : 0]. *)
Definition increment (v : option value) : value :=
  match v with
  | Some (Num x) => Num (x + 1)
  | _ => Num 1
  end.

Definition double (v : option value) : value :=
  match v with
  | Some (Num x) => Num (x * 2)
  | _ => Num 0
  end.

(** * Arrays *)

Section ArrayLemmas.
Context {A : Type}.
Implicit Types (l : array A) (x : option A) (i : nat).

Lemma slot_arr (xs : list A) i : slot (arr xs) i = xs !! i.
Proof.
  unfold slot, arr. rewrite list_lookup_fmap. by destruct (xs !! i).
Qed.

Lemma slot_lookup l i x : l !! i = Some x → slot l i = x.
Proof. unfold slot. by intros ->. Qed.

Lemma slot_ge l i : length l ≤ i → slot l i = None.
Proof. intros Hi. unfold slot. by rewrite lookup_ge_None_2. Qed.

Lemma at_index_of_nat l i : at_index l (Z.of_nat i) = slot l i.
Proof.
  unfold at_index. destruct (Z.ltb_spec (Z.of_nat i) 0); [lia|].
  by rewrite Nat2Z.id.
Qed.

Lemma assign_lt l i x : i < length l → assign l i x = <[i := x]> l.
Proof. intros Hi. unfold assign. by rewrite decide_True. Qed.

Lemma assign_length_eq l x : assign l (length l) x = l ++ [x].
Proof.
  unfold assign. rewrite decide_False by lia.
  by rewrite Nat.sub_diag.
Qed.

(** Writing just behind a prefix [p]: the first slot of the rest, if there
    is one, is overwritten. *)
Lemma assign_app_length (p t : array A) x :
  assign (p ++ t) (length p) x = p ++ x :: tail t.
Proof.
  destruct t as [|y t]; simpl.
  - rewrite app_nil_r. apply assign_length_eq.
  - rewrite assign_lt by (rewrite length_app; simpl; lia).
    by rewrite insert_app_r_alt, Nat.sub_diag by lia.
Qed.

Lemma slot_app_length (p t : array A) : slot (p ++ t) (length p) = slot t 0.
Proof.
  unfold slot. rewrite lookup_app_r by lia. by rewrite Nat.sub_diag.
Qed.

Lemma slot_app_l (p t : array A) i : i < length p → slot (p ++ t) i = slot p i.
Proof. intros Hi. unfold slot. by rewrite lookup_app_l. Qed.

Lemma snoc_of_length (l : array A) i :
  length l = S i → ∃ l' x, l = l' ++ [x] ∧ length l' = i.
Proof.
  intros Hl. destruct (decide (l = [])) as [->|Hne]; [done|].
  destruct (exists_last Hne) as (l' & x & ->).
  exists l', x. split; [done|]. rewrite length_app in Hl. simpl in Hl. lia.
Qed.

Lemma splice_middle (p t : array A) x : splice (p ++ x :: t) (length p) = p ++ t.
Proof.
  unfold splice. induction p as [|y p IH]; simpl; [done|]. by rewrite IH.
Qed.

Lemma splice_inserted l i x :
  i ≤ length l → splice (take i l ++ x :: drop i l) i = l.
Proof.
  intros Hi. rewrite <- (length_take_le l i) at 3 by done.
  by rewrite splice_middle, take_drop.
Qed.

Lemma length_splice {B : Type} l (l' : array B) i :
  length l = length l' → length (splice l i) = length (splice l' i).
Proof.
  intros Hlen. unfold splice. rewrite !delete_take_drop, !length_app.
  rewrite !length_take, !length_drop. lia.
Qed.

Lemma length_array_map {B : Type} (f : A → nat → B) l :
  length (array_map f l) = length l.
Proof. unfold array_map. apply length_imap. Qed.

Lemma lookup_array_map {B : Type} (f : A → nat → B) l i :
  array_map f l !! i = (λ s, (λ a, f a i) <$> s) <$> l !! i.
Proof. unfold array_map. by rewrite list_lookup_imap. Qed.
End ArrayLemmas.

(** * [indexOf] *)

Section IndexOfLemmas.
Context {A : Type} `{StrictEq A}.
Implicit Types (l : array A) (x : A) (i : nat).

Lemma firstIndex_Some l x i :
  firstIndex l x = Some i →
  (∃ s, l !! i = Some s ∧ slot_is x s = true) ∧
  (∀ j s, j < i → l !! j = Some s → slot_is x s = false).
Proof.
  revert i. induction l as [|s l IH]; intros i; simpl; [done|].
  destruct (slot_is x s) eqn:Hs.
  - intros [= <-]. split; [by exists s|]. intros; lia.
  - destruct (firstIndex l x) as [i'|] eqn:Hi; simpl; [|done].
    intros [= <-]. destruct (IH i' eq_refl) as [Hhit Hbefore].
    split; [done|]. intros [|j] s' Hj; simpl.
    + by intros [= <-].
    + apply Hbefore. lia.
Qed.

Lemma firstIndex_None l x :
  firstIndex l x = None ↔ ∀ j s, l !! j = Some s → slot_is x s = false.
Proof.
  induction l as [|s l IH]; simpl; [done|].
  destruct (slot_is x s) eqn:Hs.
  - split; [done|]. intros Hall. specialize (Hall 0 s eq_refl). congruence.
  - destruct (firstIndex l x) as [i'|] eqn:Hi; simpl.
    + split; [done|]. intros Hall.
      destruct IH as [_ IH]. discriminate IH. intros j s'. apply (Hall (S j)).
    + split; [|done]. intros _ [|j] s'; simpl.
      * by intros [= <-].
      * by apply IH.
Qed.

Lemma firstIndex_lt l x i : firstIndex l x = Some i → i < length l.
Proof.
  intros Hf. destruct (firstIndex_Some _ _ _ Hf) as [(s & Hi & _) _].
  by eapply lookup_lt_Some.
Qed.

Lemma firstIndex_insert l x i s t :
  l !! i = Some s → slot_is x s = slot_is x t →
  firstIndex (<[i := t]> l) x = firstIndex l x.
Proof.
  revert i. induction l as [|s' l IH]; intros [|i]; simpl; try done.
  - by intros [= ->] ->.
  - intros Hi Hs. by rewrite (IH _ Hi Hs).
Qed.

Lemma firstIndex_app l l' x :
  firstIndex (l ++ l') x =
  match firstIndex l x with
  | Some i => Some i
  | None => (λ i, length l + i) <$> firstIndex l' x
  end.
Proof.
  induction l as [|s l IH]; simpl.
  - by destruct (firstIndex l' x).
  - destruct (slot_is x s); [done|]. rewrite IH.
    destruct (firstIndex l x); [done|]. by destruct (firstIndex l' x).
Qed.

(** [indexOf] is [-1] or the first index. *)
Lemma indexOf_None l x : firstIndex l x = None → indexOf l x = (-1)%Z.
Proof. unfold indexOf. by intros ->. Qed.

Lemma indexOf_Some l x i : firstIndex l x = Some i → indexOf l x = Z.of_nat i.
Proof. unfold indexOf. by intros ->. Qed.

Lemma indexOf_inv l x (z : Z) :
  indexOf l x = z →
  (z = (-1)%Z ∧ firstIndex l x = None) ∨
  (∃ i, z = Z.of_nat i ∧ firstIndex l x = Some i).
Proof.
  unfold indexOf. destruct (firstIndex l x) as [i|]; intros <-.
  - right. by exists i.
  - by left.
Qed.
End IndexOfLemmas.

Section StrictEqLemmas.
Context {A : Type} `{StrictEqLaws A}.

(** Strictly equal keys are matched by the same slots. *)
Lemma slot_is_equiv (a b : A) (s : option A) :
  strict_eq a b = true → slot_is a s = slot_is b s.
Proof.
  intros Hab. destruct s as [y|]; simpl; [|done].
  destruct (strict_eq y a) eqn:Hya, (strict_eq y b) eqn:Hyb; try done.
  - rewrite (strict_eq_trans _ _ _ Hya Hab) in Hyb. done.
  - apply strict_eq_sym in Hab.
    rewrite (strict_eq_trans _ _ _ Hyb Hab) in Hya. done.
Qed.

(** A slot that matches [a] matches [b] exactly when [a === b]. *)
Lemma slot_is_matched (a b : A) (s : option A) :
  slot_is a s = true → slot_is b s = strict_eq a b.
Proof.
  destruct s as [y|]; simpl; [|done]. intros Hya.
  destruct (strict_eq y b) eqn:Hyb, (strict_eq a b) eqn:Hab; try done.
  - apply strict_eq_sym in Hya.
    rewrite (strict_eq_trans _ _ _ Hya Hyb) in Hab. done.
  - apply strict_eq_sym in Hab.
    assert (strict_eq y b = true) as Hyb'.
    { eapply strict_eq_trans; [exact Hya|]. by apply strict_eq_sym. }
    congruence.
Qed.

End StrictEqLemmas.

(** * [UnsortedMap.set] on the two arrays *)

Section UnsortedSet.
Context {K V : Type} `{StrictEqLaws K} `{Number V}.
Implicit Types (ks : array K) (vs : array V) (k x : K) (v : V) (i : nat).

Lemma firstIndex_equiv ks k x :
  strict_eq k x = true → firstIndex ks k = firstIndex ks x.
Proof.
  intros Hkx. induction ks as [|s ks IH]; simpl; [done|].
  by rewrite (slot_is_equiv k x s Hkx), IH.
Qed.

Lemma UnsortedMap_set_found ks vs k v i :
  firstIndex ks k = Some i →
  UnsortedMap_set_arrays (ks, vs) k v
  = (<[i := Some k]> ks, assign vs i (Some v)).
Proof.
  intros Hi. unfold UnsortedMap_set_arrays; simpl. rewrite Hi.
  by rewrite assign_lt by by eapply firstIndex_lt.
Qed.

Lemma UnsortedMap_set_missing ks vs k v :
  firstIndex ks k = None →
  UnsortedMap_set_arrays (ks, vs) k v = (ks ++ [Some k], vs ++ [Some v]).
Proof. intros Hi. unfold UnsortedMap_set_arrays; simpl. by rewrite Hi. Qed.

(** The first index of every key is kept by a [set] that finds its key. *)
Lemma firstIndex_set_found ks k x i :
  firstIndex ks k = Some i →
  firstIndex (<[i := Some k]> ks) x = firstIndex ks x.
Proof.
  intros Hi. destruct (firstIndex_Some _ _ _ Hi) as [(s & Hs & Hks) _].
  apply (firstIndex_insert _ _ _ s); [done|].
  rewrite (slot_is_matched k x s Hks). done.
Qed.

Lemma firstIndex_set_missing ks k x :
  firstIndex (ks ++ [Some k]) x =
  match firstIndex ks x with
  | Some i => Some i
  | None => if strict_eq k x then Some (length ks) else None
  end.
Proof.
  rewrite firstIndex_app. destruct (firstIndex ks x); [done|]. simpl.
  destruct (strict_eq k x); simpl; [|done]. by rewrite Nat.add_0_r.
Qed.

(** What [get] finds after [set]. *)
Lemma lookup_UnsortedMap_set ks vs k v x :
  length ks = length vs →
  let kv := UnsortedMap_set_arrays (ks, vs) k v in
  match firstIndex kv.1 x with
  | Some i => slot kv.2 i
  | None => None
  end
  = if strict_eq k x then Some v
    else match firstIndex ks x with
         | Some i => slot vs i
         | None => None
         end.
Proof.
  intros Hlen. destruct (firstIndex ks k) as [i|] eqn:Hi.
  - rewrite (UnsortedMap_set_found _ _ _ _ _ Hi); simpl.
    rewrite (firstIndex_set_found _ _ _ _ Hi).
    pose proof (firstIndex_lt _ _ _ Hi) as Hlt.
    rewrite assign_lt by lia.
    destruct (strict_eq k x) eqn:Hkx.
    + rewrite <- (firstIndex_equiv _ _ _ Hkx), Hi.
      apply slot_lookup, list_lookup_insert_eq. lia.
    + destruct (firstIndex ks x) as [j|] eqn:Hj; [|done].
      assert (j ≠ i) as Hne.
      { intros ->.
        destruct (firstIndex_Some _ _ _ Hi) as [(s & Hs & Hks) _].
        destruct (firstIndex_Some _ _ _ Hj) as [(s' & Hs' & Hxs) _].
        rewrite Hs in Hs'. injection Hs' as <-.
        rewrite (slot_is_matched k x s Hks) in Hxs. congruence. }
      unfold slot. by rewrite list_lookup_insert_ne.
  - rewrite (UnsortedMap_set_missing _ _ _ _ Hi); simpl.
    rewrite firstIndex_set_missing.
    destruct (strict_eq k x) eqn:Hkx.
    + rewrite <- (firstIndex_equiv _ _ _ Hkx), Hi, Hlen.
      by rewrite slot_app_length.
    + destruct (firstIndex ks x) as [j|] eqn:Hj; [|done].
      apply slot_app_l. rewrite <- Hlen. by eapply firstIndex_lt.
Qed.

(** Whether [has] finds a key after [set]. *)
Lemma found_UnsortedMap_set ks vs k v x :
  let kv := UnsortedMap_set_arrays (ks, vs) k v in
  match firstIndex kv.1 x with Some _ => true | None => false end
  = strict_eq k x || match firstIndex ks x with Some _ => true | None => false end.
Proof.
  destruct (firstIndex ks k) as [i|] eqn:Hi.
  - rewrite (UnsortedMap_set_found _ _ _ _ _ Hi); simpl.
    rewrite (firstIndex_set_found _ _ _ _ Hi).
    destruct (strict_eq k x) eqn:Hkx; [|done].
    by rewrite <- (firstIndex_equiv _ _ _ Hkx), Hi.
  - rewrite (UnsortedMap_set_missing _ _ _ _ Hi); simpl.
    rewrite firstIndex_set_missing.
    destruct (firstIndex ks x), (strict_eq k x); done.
Qed.

Lemma length_UnsortedMap_set ks vs k v :
  length ks = length vs →
  let kv := UnsortedMap_set_arrays (ks, vs) k v in
  length kv.1 = length kv.2.
Proof.
  intros Hlen. destruct (firstIndex ks k) as [i|] eqn:Hi.
  - rewrite (UnsortedMap_set_found _ _ _ _ _ Hi); simpl.
    pose proof (firstIndex_lt _ _ _ Hi).
    rewrite assign_lt by lia. by rewrite !length_insert.
  - rewrite (UnsortedMap_set_missing _ _ _ _ Hi); simpl.
    rewrite !length_app. simpl. lia.
Qed.

(** A key that is found keeps its index. *)
Lemma firstIndex_UnsortedMap_set ks vs k v x i :
  firstIndex ks x = Some i →
  firstIndex (UnsortedMap_set_arrays (ks, vs) k v).1 x = Some i.
Proof.
  intros Hx. destruct (firstIndex ks k) as [j|] eqn:Hj.
  - rewrite (UnsortedMap_set_found _ _ _ _ _ Hj); simpl.
    by rewrite (firstIndex_set_found _ _ _ _ Hj).
  - rewrite (UnsortedMap_set_missing _ _ _ _ Hj); simpl.
    by rewrite firstIndex_set_missing, Hx.
Qed.

(** A key that is not found is either still not found or is at the end. *)
Lemma firstIndex_UnsortedMap_set_new ks vs k v x :
  firstIndex ks x = None →
  firstIndex (UnsortedMap_set_arrays (ks, vs) k v).1 x = None ∨
  firstIndex (UnsortedMap_set_arrays (ks, vs) k v).1 x = Some (length ks).
Proof.
  intros Hx. destruct (firstIndex ks k) as [j|] eqn:Hj.
  - rewrite (UnsortedMap_set_found _ _ _ _ _ Hj); simpl.
    rewrite (firstIndex_set_found _ _ _ _ Hj). by left.
  - rewrite (UnsortedMap_set_missing _ _ _ _ Hj); simpl.
    rewrite firstIndex_set_missing, Hx. destruct (strict_eq k x); auto.
Qed.

Lemma length_keys_UnsortedMap_set ks vs k v :
  length ks ≤ length (UnsortedMap_set_arrays (ks, vs) k v).1.
Proof.
  destruct (firstIndex ks k) as [j|] eqn:Hj.
  - rewrite (UnsortedMap_set_found _ _ _ _ _ Hj); simpl.
    by rewrite length_insert.
  - rewrite (UnsortedMap_set_missing _ _ _ _ Hj); simpl.
    rewrite length_app. lia.
Qed.
End UnsortedSet.

(** * [SortedMap.set] on the two arrays *)

Section SortedSet.
Context {K V : Type} `{StrictEq K} `{Number V}.
Implicit Types (ks : array K) (vs : array V) (k x : K) (v : V) (i p : nat).

(** The loop, entered at [i] with arrays whose first [i] slots are [pk] and
    [pv]: the new entry goes to an index [p] right behind the last of those
    values that is greater than [v], and what was at [p] or behind it moves
    up by one.  The slot [i] itself, if there is one, is overwritten. *)
Lemma insert_loop_spec k v i (pk tk : array K) (pv tv : array V) :
  length pk = i → length pv = i →
  ∃ p, p ≤ i ∧
    insert_loop_arrays k v i (pk ++ tk, pv ++ tv)
    = (take p pk ++ Some k :: drop p pk ++ tail tk,
       take p pv ++ Some v :: drop p pv ++ tail tv) ∧
    (∀ j, p ≤ j → j < i → slot_gt (slot pv j) v = false) ∧
    (p = 0 ∨ ∃ p', p = S p' ∧ slot_gt (slot pv p') v = true).
Proof.
  revert pk tk pv tv. induction i as [|i IH]; intros pk tk pv tv Hk Hv.
  - apply nil_length_inv in Hk, Hv. subst. exists 0. simpl.
    split; [lia|]. split; [|split; [intros; lia|by left]].
    by rewrite (assign_app_length [] tk), (assign_app_length [] tv).
  - destruct (snoc_of_length _ _ Hk) as (pk' & sk & -> & Hk').
    destruct (snoc_of_length _ _ Hv) as (pv' & sv & -> & Hv').
    cbn [insert_loop_arrays].
    assert (slot ((pv' ++ [sv]) ++ tv) i = sv) as Hsv.
    { rewrite <- app_assoc, <- Hv', slot_app_length. done. }
    assert (slot ((pk' ++ [sk]) ++ tk) i = sk) as Hsk.
    { rewrite <- app_assoc, <- Hk', slot_app_length. done. }
    rewrite Hsv, Hsk.
    assert (∀ {B} (q : array B) s t y, length q = i →
      assign ((q ++ [s]) ++ t) (S i) y = (q ++ [s]) ++ y :: tail t) as Hassign.
    { intros B q s t y Hq.
      rewrite <- (assign_app_length (q ++ [s]) t y).
      f_equal. rewrite length_app. simpl. lia. }
    rewrite !Hassign by done.
    destruct (slot_gt sv v) eqn:Hgt.
    + exists (S i). split; [lia|].
      rewrite !take_ge, !drop_ge by (rewrite length_app; simpl; lia).
      split; [done|]. split; [intros; lia|].
      right. exists i. split; [done|].
      rewrite <- Hv', slot_app_length. done.
    + destruct (IH pk' (sk :: sk :: tail tk) pv' (sv :: sv :: tail tv) Hk' Hv')
        as (p & Hp & Hloop & Hafter & Hbefore).
      exists p. split; [lia|].
      rewrite <- !app_assoc. simpl. rewrite Hloop. simpl.
      rewrite !take_app_le, !drop_app_le by lia.
      rewrite <- !app_assoc. simpl.
      split; [done|]. split.
      * intros j Hpj Hji. destruct (decide (j = i)) as [->|Hne].
        -- rewrite <- Hv', slot_app_length. done.
        -- rewrite slot_app_l by lia. apply Hafter; lia.
      * destruct Hbefore as [->|(p' & -> & Hp')]; [by left|].
        right. exists p'. split; [done|]. rewrite slot_app_l by lia. done.
Qed.

(** With arrays of the same length, [set] removes the key and puts the entry in
    at an index [p] as above. *)
Lemma SortedMap_set_spec ks vs k v :
  length ks = length vs →
  let kv := remove_key (ks, vs) k in
  length kv.1 = length kv.2 ∧
  ∃ p, p ≤ length kv.2 ∧
    SortedMap_set_arrays (ks, vs) k v
    = (take p kv.1 ++ Some k :: drop p kv.1,
       take p kv.2 ++ Some v :: drop p kv.2) ∧
    (∀ j, p ≤ j → slot_gt (slot kv.2 j) v = false) ∧
    (p = 0 ∨ ∃ p', p = S p' ∧ slot_gt (slot kv.2 p') v = true).
Proof.
  intros Hlen kv.
  assert (length kv.1 = length kv.2) as Hlen'.
  { unfold kv, remove_key; simpl. destruct (firstIndex ks k); simpl; [|done].
    by apply length_splice. }
  split; [done|].
  destruct (insert_loop_spec k v (length kv.2) kv.1 [] kv.2 [] Hlen' eq_refl)
    as (p & Hp & Hloop & Hafter & Hbefore).
  exists p. split; [done|]. unfold SortedMap_set_arrays. fold kv.
  rewrite !app_nil_r in Hloop. destruct kv as [ks' vs']; simpl in *.
  rewrite Hloop. split; [done|]. split; [|done].
  intros j Hpj. destruct (decide (j < length vs')); [by apply Hafter|].
  rewrite slot_ge by lia. done.
Qed.

Lemma length_SortedMap_set ks vs k v :
  length ks = length vs →
  let kv := SortedMap_set_arrays (ks, vs) k v in
  length kv.1 = length kv.2.
Proof.
  intros Hlen.
  destruct (SortedMap_set_spec ks vs k v Hlen) as (Hlen' & p & Hp & -> & _).
  simpl. rewrite !length_app; simpl. rewrite !length_take, !length_drop. lia.
Qed.
End SortedSet.

(** * [set] twice *)

Section SetTwice.
Context {K V : Type} `{StrictEqLaws K} `{Number V}.
Implicit Types (ks : array K) (vs : array V) (k : K) (v : V) (i p : nat).

Lemma UnsortedMap_set_twice ks vs k v :
  strict_eq k k = true → length ks = length vs →
  UnsortedMap_set_arrays (UnsortedMap_set_arrays (ks, vs) k v) k v
  = UnsortedMap_set_arrays (ks, vs) k v.
Proof.
  intros Hk Hlen. destruct (firstIndex ks k) as [i|] eqn:Hi.
  - rewrite (UnsortedMap_set_found _ _ _ _ _ Hi).
    pose proof (firstIndex_lt _ _ _ Hi) as Hlt.
    rewrite assign_lt by lia.
    rewrite (UnsortedMap_set_found _ _ _ _ i)
      by by rewrite (firstIndex_set_found _ _ _ _ Hi).
    rewrite assign_lt by (rewrite length_insert; lia).
    by rewrite !list_insert_insert_eq.
  - rewrite (UnsortedMap_set_missing _ _ _ _ Hi).
    rewrite (UnsortedMap_set_found _ _ _ _ (length ks))
      by by rewrite firstIndex_set_missing, Hi, Hk.
    rewrite assign_lt by (rewrite length_app; simpl; lia).
    f_equal; apply list_insert_id.
    + by rewrite lookup_app_r, Nat.sub_diag by lia.
    + by rewrite Hlen, lookup_app_r, Nat.sub_diag by lia.
Qed.

(** Once its first occurrence is removed, a key that occurs once is gone. *)
Lemma remove_key_absent ks vs k :
  distinct_keys ks → firstIndex (remove_key (ks, vs) k).1 k = None.
Proof.
  intros Hdist. unfold remove_key; simpl.
  destruct (firstIndex ks k) as [i|] eqn:Hi; simpl; [|done].
  destruct (firstIndex_Some _ _ _ Hi) as [(s & Hs & Hks) Hbefore].
  apply firstIndex_None. intros j s' Hj. unfold splice in Hj.
  destruct (decide (j < i)) as [Hlt|Hge].
  - rewrite list_lookup_delete_lt in Hj by done. by eapply Hbefore.
  - rewrite list_lookup_delete_ge in Hj by lia.
    destruct (slot_is k s') eqn:Hks'; [|done].
    destruct s as [a|]; [|done]. destruct s' as [b|]; [|done].
    simpl in Hks, Hks'.
    assert (strict_eq a b = true) as Hab.
    { eapply strict_eq_trans; [exact Hks|]. by apply strict_eq_sym. }
    pose proof (Hdist _ _ _ _ Hs Hj Hab). lia.
Qed.

Lemma firstIndex_take ks k p :
  firstIndex ks k = None → firstIndex (take p ks) k = None.
Proof.
  rewrite !firstIndex_None. intros Hnone j s Hj.
  apply lookup_take_Some in Hj as [Hj _]. by eapply Hnone.
Qed.

(** Removing the key that was just put in gives back the arrays it was put
    into. *)
Lemma remove_key_inserted ks vs k v p :
  firstIndex ks k = None → strict_eq k k = true →
  p ≤ length ks → p ≤ length vs →
  remove_key (take p ks ++ Some k :: drop p ks,
              take p vs ++ Some v :: drop p vs) k
  = (ks, vs).
Proof.
  intros Hnone Hk Hpk Hpv. unfold remove_key; simpl.
  rewrite firstIndex_app, (firstIndex_take _ _ p Hnone). simpl.
  rewrite Hk. simpl. rewrite Nat.add_0_r, length_take_le by done.
  by rewrite !splice_inserted.
Qed.

Lemma SortedMap_set_twice ks vs k v :
  strict_eq k k = true → length ks = length vs → distinct_keys ks →
  SortedMap_set_arrays (SortedMap_set_arrays (ks, vs) k v) k v
  = SortedMap_set_arrays (ks, vs) k v.
Proof.
  intros Hk Hlen Hdist.
  pose proof (remove_key_absent ks vs k Hdist) as Habsent.
  destruct (SortedMap_set_spec ks vs k v Hlen)
    as (Hlen' & p & Hp & Hset & _).
  rewrite Hset at 1. unfold SortedMap_set_arrays at 1.
  destruct (remove_key (ks, vs) k) as [ks0 vs0] eqn:Hrem. simpl in *.
  rewrite remove_key_inserted by (done || lia).
  unfold SortedMap_set_arrays. by rewrite Hrem.
Qed.

(** [set] keeps the keys distinct. *)
Lemma distinct_keys_nil : distinct_keys ([] : array K).
Proof. intros i j a b Hi. by rewrite lookup_nil in Hi. Qed.

Lemma distinct_keys_splice ks i :
  distinct_keys ks → distinct_keys (splice ks i).
Proof.
  intros Hdist j1 j2 a b Hj1 Hj2 Hab. unfold splice in *.
  rewrite list_lookup_delete in Hj1, Hj2.
  repeat case_decide;
    pose proof (Hdist _ _ _ _ Hj1 Hj2 Hab); lia.
Qed.

Lemma lookup_inserted {A : Type} (l : list A) (x y : A) p j :
  p ≤ length l →
  (take p l ++ x :: drop p l) !! j = Some y →
  (j < p ∧ l !! j = Some y) ∨ (j = p ∧ y = x) ∨
  (p < j ∧ l !! (j - 1) = Some y).
Proof.
  intros Hp Hj.
  apply lookup_app_Some in Hj as [Hj|[Hge Hj]].
  - apply lookup_take_Some in Hj as [Hj Hlt]. by left.
  - rewrite length_take_le in Hge, Hj by done.
    destruct (j - p) as [|d] eqn:Hd; simpl in Hj.
    + right. left. split; [lia|congruence].
    + right. right. split; [lia|]. rewrite lookup_drop in Hj.
      by replace (j - 1) with (p + d) by lia.
Qed.

Lemma distinct_keys_inserted ks k p :
  distinct_keys ks → firstIndex ks k = None → p ≤ length ks →
  distinct_keys (take p ks ++ Some k :: drop p ks).
Proof.
  intros Hdist Hnone Hp j1 j2 a b Hj1 Hj2 Hab.
  rewrite firstIndex_None in Hnone.
  destruct (lookup_inserted _ _ _ _ _ Hp Hj1)
    as [[? Hj1']|[[-> Ha]|[? Hj1']]];
  destruct (lookup_inserted _ _ _ _ _ Hp Hj2)
    as [[? Hj2']|[[-> Hb]|[? Hj2']]];
  clear Hj1 Hj2; try rename Hj1' into Hj1; try rename Hj2' into Hj2;
  try done; try (pose proof (Hdist _ _ _ _ Hj1 Hj2 Hab); lia).
  - injection Hb as ->. apply Hnone in Hj1. simpl in Hj1. congruence.
  - injection Ha as ->. apply Hnone in Hj2. simpl in Hj2.
    apply strict_eq_sym in Hab. congruence.
  - injection Ha as ->. apply Hnone in Hj2. simpl in Hj2.
    apply strict_eq_sym in Hab. congruence.
  - injection Hb as ->. apply Hnone in Hj1. simpl in Hj1. congruence.
Qed.

Lemma distinct_keys_SortedMap_set ks vs k v :
  length ks = length vs → distinct_keys ks →
  distinct_keys (SortedMap_set_arrays (ks, vs) k v).1.
Proof.
  intros Hlen Hdist.
  pose proof (remove_key_absent ks vs k Hdist) as Habsent.
  destruct (SortedMap_set_spec ks vs k v Hlen)
    as (Hlen' & p & Hp & -> & _).
  assert (distinct_keys (remove_key (ks, vs) k).1) as Hdist'.
  { unfold remove_key; simpl. destruct (firstIndex ks k); simpl; [|done].
    by apply distinct_keys_splice. }
  simpl. apply distinct_keys_inserted; [done|done|lia].
Qed.

End SetTwice.

(** * The order kept by [SortedMap.set] *)

Section SortedOrder.
Context {K V : Type} `{StrictEq K} `{NumberLaws V}.
Implicit Types (ks : array K) (vs : array V) (k : K) (v : V) (i j p : nat).
Implicit Types (P : V → Prop) (l : list V).

Lemma sorted_values_nil P : sorted_values P [].
Proof.
  exists []. split; [done|]. split; [done|].
  intros i j a b _ Hi. by rewrite lookup_nil in Hi.
Qed.

Lemma sorted_values_splice P vs i :
  sorted_values P vs → sorted_values P (splice vs i).
Proof.
  intros (l & -> & HP & Hsorted). exists (delete i l).
  split; [unfold splice, arr; by rewrite list_fmap_delete|].
  split; [by apply Forall_delete|].
  intros j1 j2 a b Hlt Hj1 Hj2. rewrite list_lookup_delete in Hj1, Hj2.
  repeat case_decide; (eapply Hsorted; [|exact Hj1|exact Hj2]); lia.
Qed.

(** Putting [v] in at an index [p] chosen as the loop of [set] chooses it
    keeps the values sorted, when [v] is comparable with the values. *)
Lemma sorted_values_inserted P vs v p :
  (∀ a b, P a → P b → comparable a b) → P v →
  sorted_values P vs → p ≤ length vs →
  (∀ j, p ≤ j → slot_gt (slot vs j) v = false) →
  (p = 0 ∨ ∃ p', p = S p' ∧ slot_gt (slot vs p') v = true) →
  sorted_values P (take p vs ++ Some v :: drop p vs).
Proof.
  intros Hcmp Hv (l & -> & HP & Hsorted) Hp Hafter Hbefore.
  unfold arr in Hp. rewrite length_fmap in Hp.
  exists (take p l ++ v :: drop p l). split.
  { unfold arr. by rewrite fmap_app, fmap_cons, fmap_take, fmap_drop. }
  split.
  { apply Forall_app. split; [by apply Forall_take|].
    constructor; [done|by apply Forall_drop]. }
  assert (∀ j b, p ≤ j → l !! j = Some b → js_ge v b = true) as Hlater.
  { intros j b Hj Hb. apply Hcmp; [|done|].
    - rewrite Forall_lookup in HP. by eapply HP.
    - specialize (Hafter j Hj). by rewrite slot_arr, Hb in Hafter. }
  assert (∀ j a, j < p → l !! j = Some a → js_ge a v = true) as Hearlier.
  { intros j a Hj Ha. destruct Hbefore as [->|(p' & -> & Hgt)]; [lia|].
    rewrite slot_arr in Hgt.
    destruct (l !! p') as [y|] eqn:Hy; [|done]. simpl in Hgt.
    apply js_gt_ge in Hgt. destruct (decide (j = p')) as [->|Hne].
    - congruence.
    - eapply js_ge_trans; [|exact Hgt].
      eapply (Hsorted j p'); [lia|done|done]. }
  intros j1 j2 a b Hlt Hj1 Hj2.
  destruct (lookup_inserted _ _ _ _ _ Hp Hj1)
    as [[? Hj1']|[[-> ->]|[? Hj1']]];
  destruct (lookup_inserted _ _ _ _ _ Hp Hj2)
    as [[? Hj2']|[[-> ->]|[? Hj2']]]; try lia.
  - eapply Hsorted; [|exact Hj1'|exact Hj2']. lia.
  - by eapply Hearlier.
  - eapply Hsorted; [|exact Hj1'|exact Hj2']. lia.
  - eapply Hlater; [|exact Hj2']. lia.
  - eapply Hsorted; [|exact Hj1'|exact Hj2']. lia.
Qed.

Lemma sorted_values_SortedMap_set P ks vs k v :
  (∀ a b, P a → P b → comparable a b) → P v →
  length ks = length vs → sorted_values P vs →
  sorted_values P (SortedMap_set_arrays (ks, vs) k v).2.
Proof.
  intros Hcmp Hv Hlen Hsorted.
  destruct (SortedMap_set_spec ks vs k v Hlen)
    as (Hlen' & p & Hp & -> & Hafter & Hbefore).
  simpl. apply sorted_values_inserted; try done.
  unfold remove_key; simpl. destruct (firstIndex ks k); simpl; [|done].
  by apply sorted_values_splice.
Qed.

Lemma sorted_values_descending P vs : sorted_values P vs → descending vs.
Proof.
  intros (l & -> & _ & Hsorted) i Hi.
  unfold arr in Hi. rewrite length_fmap in Hi.
  destruct (lookup_lt_is_Some_2 l i) as [a Ha]; [lia|].
  destruct (lookup_lt_is_Some_2 l (S i)) as [b Hb]; [lia|].
  exists a, b. rewrite !slot_arr. split; [done|]. split; [done|].
  eapply (Hsorted i (S i)); [lia|done|done].
Qed.

(** In values that do not increase, each is [>=] every later one. *)
Lemma descending_pairwise vs i j a b :
  descending vs → i < j →
  slot vs i = Some a → slot vs j = Some b → js_ge a b = true.
Proof.
  intros Hdesc Hlt Ha. revert b. induction j as [|j IH]; intros b Hb; [lia|].
  assert (S j < length vs) as Hj.
  { destruct (decide (S j < length vs)); [done|].
    rewrite slot_ge in Hb by lia. done. }
  destruct (Hdesc j Hj) as (c & b' & Hc & Hb' & Hcb).
  assert (b' = b) as -> by congruence.
  destruct (decide (i = j)) as [->|Hne].
  - congruence.
  - eapply js_ge_trans; [|exact Hcb]. apply IH; [lia|done].
Qed.

Lemma descending_splice vs i : descending vs → descending (splice vs i).
Proof.
  intros Hdesc j Hj. unfold splice in *.
  set (g := λ n, if decide (n < i) then n else S n).
  assert (∀ n, delete i vs !! n = vs !! g n) as Hg.
  { intros n. unfold g. rewrite list_lookup_delete. by case_decide. }
  apply lookup_lt_is_Some_2 in Hj as [sb Hsb]. rewrite Hg in Hsb.
  apply lookup_lt_Some in Hsb.
  assert (g j < g (S j)) as Hlt by (unfold g; repeat case_decide; lia).
  destruct (Hdesc (g j)) as (a & _ & Ha & _); [lia|].
  destruct (Hdesc (g (S j) - 1)) as (_ & b & _ & Hb & _); [lia|].
  replace (S (g (S j) - 1)) with (g (S j)) in Hb by lia.
  exists a, b. unfold slot in *. rewrite !Hg.
  split; [done|]. split; [done|].
  by eapply (descending_pairwise vs (g j) (g (S j))).
Qed.

End SortedOrder.

(** * Further properties of [set], [get] and [has] *)

Section IndexShift.
Context {A : Type} `{StrictEq A}.
Implicit Types (l : array A) (x : A) (s : option A) (i j p : nat).

(** Taking out a slot that does not match [x] moves the first index of [x]
    down by one when it was behind that slot. *)
Lemma firstIndex_splice_other l x i s :
  l !! i = Some s → slot_is x s = false →
  firstIndex (splice l i) x
  = (λ j, if decide (j < i) then j else j - 1) <$> firstIndex l x.
Proof.
  unfold splice. revert i.
  induction l as [|s0 l IH]; intros [|i] Hi Hs; simpl in *; try done.
  - injection Hi as ->. rewrite Hs.
    destruct (firstIndex l x) as [j|]; simpl; [|done].
    f_equal. repeat case_decide; lia.
  - destruct (slot_is x s0); simpl.
    + done.
    + rewrite (IH i Hi Hs).
      destruct (firstIndex l x) as [j|] eqn:Hj; simpl; [|done].
      assert (j ≠ i) as Hne.
      { intros ->. destruct (firstIndex_Some _ _ _ Hj) as [(s' & Hs' & Hx) _].
        congruence. }
      f_equal. repeat case_decide; lia.
Qed.

(** Putting in a slot that does not match [x] moves the first index of [x]
    up by one when it was at or behind the place. *)
Lemma firstIndex_inserted_other l x p s :
  slot_is x s = false → p ≤ length l →
  firstIndex (take p l ++ s :: drop p l) x
  = (λ j, if decide (j < p) then j else S j) <$> firstIndex l x.
Proof.
  intros Hs. revert p.
  induction l as [|s0 l IH]; intros [|p] Hp; simpl in *; try lia.
  - by rewrite Hs.
  - rewrite Hs. destruct (slot_is x s0); simpl; [done|].
    destruct (firstIndex l x) as [j|]; simpl; [|done]. done.
  - destruct (slot_is x s0); simpl.
    + done.
    + rewrite (IH p) by lia.
      destruct (firstIndex l x) as [j|]; simpl; [|done].
      f_equal. repeat case_decide; lia.
Qed.
End IndexShift.

Section SlotShift.
Context {A : Type}.
Implicit Types (l : array A) (s : option A) (i j p : nat).

Lemma slot_splice_other l i j :
  j ≠ i → slot (splice l i) (if decide (j < i) then j else j - 1) = slot l j.
Proof.
  intros Hne. unfold slot, splice. case_decide.
  - by rewrite list_lookup_delete_lt.
  - rewrite list_lookup_delete_ge by lia. by replace (S (j - 1)) with j by lia.
Qed.

Lemma slot_inserted_other l p s j :
  p ≤ length l →
  slot (take p l ++ s :: drop p l) (if decide (j < p) then j else S j)
  = slot l j.
Proof.
  intros Hp. unfold slot. case_decide.
  - rewrite lookup_app_l by (rewrite length_take; lia).
    by rewrite lookup_take_lt.
  - rewrite lookup_app_r by (rewrite length_take; lia).
    rewrite length_take_le by done.
    replace (S j - p) with (S (j - p)) by lia. simpl.
    rewrite lookup_drop. by replace (p + (j - p)) with j by lia.
Qed.

Lemma slot_inserted l p s :
  p ≤ length l → slot (take p l ++ s :: drop p l) p = s.
Proof.
  intros Hp. unfold slot.
  rewrite lookup_app_r by (rewrite length_take; lia).
  by rewrite length_take_le, Nat.sub_diag by done.
Qed.
End SlotShift.

Section SortedLookup.
Context {K V : Type} `{StrictEqLaws K} `{Number V}.
Implicit Types (ks : array K) (vs : array V) (k x : K) (v : V) (i p : nat).

Lemma strict_eq_self k x : strict_eq k x = true → strict_eq k k = true.
Proof.
  intros Hkx. eapply strict_eq_trans; [exact Hkx|]. by apply strict_eq_sym.
Qed.

(** Removing the key [k] leaves the entries of the other keys. *)
Lemma lookup_remove_key_other ks vs k x :
  strict_eq k x = false →
  lookup_arrays (remove_key (ks, vs) k) x = lookup_arrays (ks, vs) x ∧
  found_arrays (remove_key (ks, vs) k) x = found_arrays (ks, vs) x.
Proof.
  intros Hkx. unfold remove_key, lookup_arrays, found_arrays; simpl.
  destruct (firstIndex ks k) as [i|] eqn:Hi; simpl; [|done].
  destruct (firstIndex_Some _ _ _ Hi) as [(s & Hs & Hks) _].
  assert (slot_is x s = false) as Hxs.
  { by rewrite (slot_is_matched k x s Hks). }
  rewrite (firstIndex_splice_other _ _ _ _ Hs Hxs).
  destruct (firstIndex ks x) as [j|] eqn:Hj; simpl; [|done].
  split; [|done]. apply slot_splice_other. intros ->.
  destruct (firstIndex_Some _ _ _ Hj) as [(s' & Hs' & Hx) _]. congruence.
Qed.

(** Putting the entry of [k] in leaves the entries of the other keys. *)
Lemma lookup_inserted_other ks vs k v x p :
  strict_eq k x = false → p ≤ length ks → p ≤ length vs →
  let kv := (take p ks ++ Some k :: drop p ks,
             take p vs ++ Some v :: drop p vs) in
  lookup_arrays kv x = lookup_arrays (ks, vs) x ∧
  found_arrays kv x = found_arrays (ks, vs) x.
Proof.
  intros Hkx Hpk Hpv. unfold lookup_arrays, found_arrays; simpl.
  rewrite (firstIndex_inserted_other ks x p (Some k)) by done.
  destruct (firstIndex ks x) as [j|]; simpl; [|done].
  split; [|done]. by apply slot_inserted_other.
Qed.

(** The entry that was put in is found under every key [=== k], when no
    other slot holds such a key. *)
Lemma lookup_inserted_same ks vs k v x p :
  firstIndex ks k = None → strict_eq k x = true →
  p ≤ length ks → p ≤ length vs →
  lookup_arrays (take p ks ++ Some k :: drop p ks,
                 take p vs ++ Some v :: drop p vs) x = Some v.
Proof.
  intros Hnone Hkx Hpk Hpv. unfold lookup_arrays; simpl.
  rewrite <- (firstIndex_equiv _ k x Hkx).
  rewrite firstIndex_app, (firstIndex_take _ _ p Hnone). simpl.
  rewrite (strict_eq_self k x Hkx). simpl.
  rewrite Nat.add_0_r, length_take_le by done. by apply slot_inserted.
Qed.

Lemma found_inserted_same ks k x p :
  strict_eq k x = true →
  firstIndex (take p ks ++ Some k :: drop p ks) x ≠ None.
Proof.
  intros Hkx Hnone. rewrite firstIndex_None in Hnone.
  assert ((take p ks ++ Some k :: drop p ks) !! length (take p ks)
          = Some (Some k)) as Hk.
  { by rewrite lookup_app_r, Nat.sub_diag by lia. }
  apply Hnone in Hk. simpl in Hk. congruence.
Qed.

(** [get] and [has] after [SortedMap.set], on the two arrays. *)
Lemma lookup_SortedMap_set ks vs k v x :
  length ks = length vs →
  (strict_eq k x = true → distinct_keys ks) →
  lookup_arrays (SortedMap_set_arrays (ks, vs) k v) x
  = if strict_eq k x then Some v else lookup_arrays (ks, vs) x.
Proof.
  intros Hlen Hdist.
  destruct (SortedMap_set_spec ks vs k v Hlen)
    as (Hlen' & p & Hp & -> & _).
  destruct (strict_eq k x) eqn:Hkx.
  - pose proof (remove_key_absent ks vs k (Hdist eq_refl)) as Habsent.
    apply lookup_inserted_same; try done. lia.
  - destruct (lookup_remove_key_other ks vs k x Hkx) as [<- _].
    destruct (remove_key (ks, vs) k) as [ks0 vs0]. simpl in *.
    apply lookup_inserted_other; [done|lia|done].
Qed.

Lemma found_SortedMap_set ks vs k v x :
  length ks = length vs →
  found_arrays (SortedMap_set_arrays (ks, vs) k v) x
  = strict_eq k x || found_arrays (ks, vs) x.
Proof.
  intros Hlen.
  destruct (SortedMap_set_spec ks vs k v Hlen)
    as (Hlen' & p & Hp & -> & _).
  destruct (strict_eq k x) eqn:Hkx; simpl.
  - unfold found_arrays; simpl.
    pose proof (found_inserted_same (remove_key (ks, vs) k).1 k x p Hkx).
    by destruct (firstIndex _ x).
  - destruct (lookup_remove_key_other ks vs k x Hkx) as [_ <-].
    destruct (remove_key (ks, vs) k) as [ks0 vs0]. simpl in *.
    apply lookup_inserted_other; [done|lia|done].
Qed.

(** [set] with a key that occurs once: the second of two calls with
    strictly equal keys decides. *)
Lemma UnsortedMap_set_over ks vs k k' v v' :
  strict_eq k k' = true → length ks = length vs →
  UnsortedMap_set_arrays (UnsortedMap_set_arrays (ks, vs) k v) k' v'
  = UnsortedMap_set_arrays (ks, vs) k' v'.
Proof.
  intros Hk Hlen. pose proof (firstIndex_equiv ks k k' Hk) as Hequiv.
  destruct (firstIndex ks k) as [i|] eqn:Hi.
  - rewrite (UnsortedMap_set_found _ _ _ _ _ Hi).
    pose proof (firstIndex_lt _ _ _ Hi) as Hlt.
    rewrite assign_lt by lia.
    rewrite (UnsortedMap_set_found _ _ _ _ i)
      by by rewrite (firstIndex_set_found _ _ _ _ Hi).
    rewrite (UnsortedMap_set_found ks vs k' v' i) by done.
    rewrite !assign_lt by (rewrite ?length_insert; lia).
    by rewrite !list_insert_insert_eq.
  - rewrite (UnsortedMap_set_missing _ _ _ _ Hi).
    rewrite (UnsortedMap_set_found _ _ _ _ (length ks))
      by by rewrite firstIndex_set_missing, <- Hequiv, Hk.
    rewrite (UnsortedMap_set_missing ks vs k' v') by done.
    rewrite assign_lt by (rewrite length_app; simpl; lia).
    rewrite Hlen at 2.
    by rewrite !insert_app_r_alt, !Nat.sub_diag by lia.
Qed.

Lemma remove_key_equiv ks vs k k' :
  strict_eq k k' = true → remove_key (ks, vs) k = remove_key (ks, vs) k'.
Proof.
  intros Hk. unfold remove_key; simpl.
  by rewrite (firstIndex_equiv ks k k' Hk).
Qed.

Lemma SortedMap_set_over ks vs k k' v v' :
  strict_eq k k' = true → length ks = length vs → distinct_keys ks →
  SortedMap_set_arrays (SortedMap_set_arrays (ks, vs) k v) k' v'
  = SortedMap_set_arrays (ks, vs) k' v'.
Proof.
  intros Hk Hlen Hdist.
  pose proof (remove_key_absent ks vs k Hdist) as Habsent.
  destruct (SortedMap_set_spec ks vs k v Hlen)
    as (Hlen' & p & Hp & Hset & _).
  rewrite Hset. unfold SortedMap_set_arrays at 1.
  rewrite <- (remove_key_equiv _ _ k k' Hk).
  destruct (remove_key (ks, vs) k) as [ks0 vs0] eqn:Hrem. simpl in *.
  rewrite remove_key_inserted
    by (done || lia || by apply (strict_eq_self k k')).
  unfold SortedMap_set_arrays.
  by rewrite <- (remove_key_equiv _ _ k k' Hk), Hrem.
Qed.

Lemma distinct_keys_UnsortedMap_set ks vs k v :
  distinct_keys ks → distinct_keys (UnsortedMap_set_arrays (ks, vs) k v).1.
Proof.
  intros Hdist. destruct (firstIndex ks k) as [i|] eqn:Hi.
  - rewrite (UnsortedMap_set_found _ _ _ _ _ Hi); simpl.
    destruct (firstIndex_Some _ _ _ Hi) as [(s & Hs & Hks) _].
    destruct s as [c|]; [|done]. simpl in Hks.
    pose proof (firstIndex_lt _ _ _ Hi) as Hlt.
    assert (∀ j a b, j ≠ i → ks !! j = Some (Some b) →
      strict_eq a b = true → strict_eq k a = true → False) as Hclash.
    { intros j a b Hne Hj Hab Hka. apply Hne.
      apply (Hdist j i b c Hj Hs). apply strict_eq_sym.
      eapply strict_eq_trans; [exact Hks|].
      eapply strict_eq_trans; [exact Hka|exact Hab]. }
    intros j1 j2 a b Hj1 Hj2 Hab.
    destruct (decide (j1 = i)) as [->|Hne1], (decide (j2 = i)) as [->|Hne2];
      [done| | |].
    + rewrite list_lookup_insert_eq in Hj1 by done. injection Hj1 as <-.
      rewrite list_lookup_insert_ne in Hj2 by done.
      exfalso. eapply (Hclash j2 k b); [done|done|done|].
      by apply (strict_eq_self k b).
    + rewrite list_lookup_insert_eq in Hj2 by done. injection Hj2 as <-.
      rewrite list_lookup_insert_ne in Hj1 by done.
      apply strict_eq_sym in Hab.
      exfalso. eapply (Hclash j1 k a); [done|done|done|].
      by apply (strict_eq_self k a).
    + rewrite list_lookup_insert_ne in Hj1, Hj2 by done.
      by apply (Hdist j1 j2 a b).
  - rewrite (UnsortedMap_set_missing _ _ _ _ Hi); simpl.
    rewrite <- (take_ge ks (length ks)) at 1 by done.
    replace [Some k] with (Some k :: drop (length ks) ks)
      by by rewrite drop_ge.
    by apply distinct_keys_inserted.
Qed.

Lemma length_keys_SortedMap_set ks vs k v :
  length ks = length vs →
  length (SortedMap_set_arrays (ks, vs) k v).1
  = match firstIndex ks k with
    | Some _ => length ks
    | None => S (length ks)
    end.
Proof.
  intros Hlen.
  destruct (SortedMap_set_spec ks vs k v Hlen)
    as (Hlen' & p & Hp & -> & _).
  simpl. rewrite length_app. simpl. rewrite length_take, length_drop.
  unfold remove_key in *. simpl in *.
  destruct (firstIndex ks k) as [i|] eqn:Hi; simpl in *; [|lia].
  pose proof (firstIndex_lt _ _ _ Hi) as Hlt.
  unfold splice in *. rewrite length_delete in * by by apply lookup_lt_is_Some_2.
  lia.
Qed.

End SortedLookup.

(** * The loops of the constructor of [SortedMap] *)

Section ConstructorLoops.
Context {K V : Type} `{StrictEq K} `{Number V}.
Implicit Types (ks : array K) (vs : array V) (kv : array K * array V).

(** One round of the inner loop, at two indices inside the arrays. *)
Lemma swap_if_less_values ks vs i j :
  i < length vs → j < length vs →
  (swap_if_less_arrays i j (ks, vs)).2
  = if slot_lt (slot vs i) (slot vs j)
    then <[i := slot vs j]> (<[j := slot vs i]> vs) else vs.
Proof.
  intros Hi Hj. unfold swap_if_less_arrays. destruct (slot_lt _ _); [|done]. simpl.
  rewrite (assign_lt vs j) by done.
  by rewrite assign_lt by (by rewrite length_insert).
Qed.

Lemma swap_if_less_keys ks vs i j :
  i < length ks → j < length ks →
  (swap_if_less_arrays i j (ks, vs)).1
  = if slot_lt (slot vs i) (slot vs j)
    then <[i := slot ks j]> (<[j := slot ks i]> ks) else ks.
Proof.
  intros Hi Hj. unfold swap_if_less_arrays. destruct (slot_lt _ _); [|done]. simpl.
  rewrite (assign_lt ks j) by done.
  by rewrite assign_lt by (by rewrite length_insert).
Qed.

(** What every round of the inner loop keeps, the inner loop keeps. *)
Lemma sort_inner_invariant (J : nat → array K * array V → Prop) N i n j kv :
  (∀ j kv, i < j < N → J j kv → J (S j) (swap_if_less_arrays i j kv)) →
  i < j → j + n = N → J j kv → J N (sort_inner_arrays n i j kv).
Proof.
  intros Hstep. revert j kv.
  induction n as [|n IH]; intros j kv Hij Hn HJ; simpl.
  - by replace N with j by lia.
  - apply IH; [lia|lia|]. apply Hstep; [lia|done].
Qed.

(** The two loops, with [I i] before round [i] of the outer loop and
    [J i j] before round [j] of its inner loop. *)
Lemma sort_outer_invariant
    (I : nat → array K * array V → Prop)
    (J : nat → nat → array K * array V → Prop) N :
  (∀ i kv, I i kv → length kv.2 = N) →
  (∀ i kv, i < N → I i kv → J i (S i) kv) →
  (∀ i j kv, i < j < N → J i j kv → J i (S j) (swap_if_less_arrays i j kv)) →
  (∀ i kv, i < N → J i N kv → I (S i) kv) →
  ∀ n i kv, i + n = N → I i kv → I N (sort_outer_arrays n i kv).
Proof.
  intros Hlen Hinit Hstep Hfin.
  induction n as [|n IH]; intros i kv Hn HI; simpl.
  - by replace N with i by lia.
  - apply IH; [lia|]. apply Hfin; [lia|].
    apply sort_inner_invariant.
    + intros j kv'. apply Hstep.
    + lia.
    + rewrite (Hlen _ _ HI). lia.
    + apply Hinit; [lia|done].
Qed.

Lemma lookup_zip_slots ks vs i :
  length ks = length vs → i < length ks →
  zip ks vs !! i = Some (slot ks i, slot vs i).
Proof.
  intros Hlen Hi.
  destruct (lookup_lt_is_Some_2 ks i) as [a Ha]; [done|].
  destruct (lookup_lt_is_Some_2 vs i) as [b Hb]; [lia|].
  rewrite lookup_zip_with, Ha, Hb. simpl.
  by rewrite (slot_lookup _ _ _ Ha), (slot_lookup _ _ _ Hb).
Qed.

(** The loops move keys and values together. *)
Lemma sort_arrays_permutation ks vs :
  length ks = length vs →
  let '(ks', vs') := sort_arrays (ks, vs) in
  length ks' = length ks ∧ length vs' = length vs ∧
  zip ks' vs' ≡ₚ zip ks vs.
Proof.
  intros Hlen.
  set (I := λ kv, length kv.1 = length vs ∧ length kv.2 = length vs ∧
                  zip kv.1 kv.2 ≡ₚ zip ks vs).
  assert (I (sort_arrays (ks, vs))) as HI.
  { apply (sort_outer_invariant (λ _, I) (λ _ _, I) (length vs)).
    - by intros _ kv (_ & ? & _).
    - done.
    - intros i j [ks1 vs1] Hij (Hk & Hv & Hperm). simpl in Hk, Hv, Hperm.
      unfold I.
      rewrite swap_if_less_keys, swap_if_less_values by lia.
      destruct (slot_lt _ _); [|done].
      rewrite !length_insert. split; [done|]. split; [done|].
      rewrite <- !insert_zip_with. etransitivity; [|exact Hperm].
      apply Permutation_insert_swap; apply lookup_zip_slots; lia.
    - done.
    - done.
    - by unfold I. }
  destruct (sort_arrays (ks, vs)) as [ks' vs']. destruct HI as (Hk & Hv & Hp).
  simpl in Hk, Hv, Hp. split; [lia|]. done.
Qed.

(** The order the loops reach, for values in [P] that [<] compares: the
    same values, sorted. *)
Lemma sort_arrays_sorted `{!NumberLaws V} (P : V → Prop) ks (l : list V) :
  (∀ a b, js_lt a b = true → js_ge b a = true) →
  (∀ a b, P a → P b → js_lt a b = false → js_ge a b = true) →
  Forall P l →
  ∃ l', (sort_arrays (ks, arr l)).2 = arr l' ∧ l' ≡ₚ l ∧
    ∀ i j a b, i < j → l' !! i = Some a → l' !! j = Some b →
      js_ge a b = true.
Proof.
  intros Hlt Hnlt HP.
  set (N := length l).
  set (I := λ i kv, ∃ l', kv.2 = arr l' ∧ length l' = N ∧ l' ≡ₚ l ∧
    ∀ p q a b, p < i → p < q → l' !! p = Some a → l' !! q = Some b →
      js_ge a b = true).
  set (J := λ i j kv, ∃ l', kv.2 = arr l' ∧ length l' = N ∧ l' ≡ₚ l ∧
    (∀ p q a b, p < i → p < q → l' !! p = Some a → l' !! q = Some b →
      js_ge a b = true) ∧
    (∀ q a b, i < q < j → l' !! i = Some a → l' !! q = Some b →
      js_ge a b = true)).
  assert (I N (sort_arrays (ks, arr l))) as (l' & Hl' & HN & Hperm & Hsorted).
  { unfold sort_arrays. simpl. unfold arr at 1. rewrite length_fmap.
    apply (sort_outer_invariant I J N).
    - intros i kv (l' & -> & <- & _). unfold arr. by rewrite length_fmap.
    - intros i kv Hi (l' & ? & ? & ? & ?).
      exists l'. repeat (split; [done|]). intros q a b Hq. lia.
    - intros i j [ks1 vs1] Hij (l1 & Hvs & Hlen & Hperm1 & Hbefore & Hrow).
      simpl in Hvs. subst vs1.
      assert (Forall P l1) as HP1 by by rewrite Hperm1.
      destruct (lookup_lt_is_Some_2 l1 i) as [a Ha]; [lia|].
      destruct (lookup_lt_is_Some_2 l1 j) as [b Hb]; [lia|].
      unfold J.
      rewrite swap_if_less_values
        by (unfold arr; rewrite length_fmap; lia).
      rewrite !slot_arr, Ha, Hb. simpl.
      destruct (js_lt a b) eqn:Hab.
      + exists (<[i := b]> (<[j := a]> l1)).
        split; [unfold arr; by rewrite !list_fmap_insert|].
        split; [by rewrite !length_insert|].
        split.
        { etransitivity; [|exact Hperm1].
          by apply Permutation_insert_swap. }
        split.
        * intros p q x y Hp Hpq.
          rewrite !(list_lookup_insert_ne _ _ p) by lia. intros Hx.
          destruct (decide (q = i)) as [->|Hqi].
          { rewrite list_lookup_insert_eq
              by (rewrite length_insert; lia).
            intros [= <-]. eapply (Hbefore p j); [lia|lia|done|done]. }
          rewrite list_lookup_insert_ne by done.
          destruct (decide (q = j)) as [->|Hqj].
          { rewrite list_lookup_insert_eq by lia.
            intros [= <-]. eapply (Hbefore p i); [lia|lia|done|done]. }
          rewrite list_lookup_insert_ne by done.
          intros Hy. by eapply (Hbefore p q).
        * intros q x y Hq.
          rewrite list_lookup_insert_eq by (rewrite length_insert; lia).
          intros [= <-].
          rewrite list_lookup_insert_ne by lia.
          destruct (decide (q = j)) as [->|Hqj].
          { rewrite list_lookup_insert_eq by lia.
            intros [= <-]. by apply Hlt. }
          rewrite list_lookup_insert_ne by done. intros Hy.
          eapply js_ge_trans; [by apply Hlt|].
          eapply (Hrow q); [lia|done|done].
      + exists l1. repeat (split; [done|]).
        intros q x y Hq Hx Hy.
        assert (x = a) as -> by congruence.
        destruct (decide (q = j)) as [->|Hqj].
        * assert (y = b) as -> by congruence.
          apply Hnlt; [|  |done].
          -- by eapply Forall_lookup_1 in Ha.
          -- by eapply Forall_lookup_1 in Hb.
        * eapply (Hrow q); [lia|done|done].
    - intros i kv Hi (l' & ? & Hlen & ? & Hbefore & Hrow).
      exists l'. repeat (split; [done|]). intros p q a b Hp Hpq Ha Hb.
      destruct (decide (p = i)) as [->|Hne].
      + eapply (Hrow q); [|done|done].
        apply lookup_lt_Some in Hb. lia.
      + eapply (Hbefore p q); [lia|done|done|done].
    - lia.
    - exists l. repeat (split; [done|]). intros p q a b Hp. lia. }
  exists l'. split; [done|]. split; [done|].
  intros i j a b Hij Ha Hb. eapply (Hsorted i j); [|done|done|done].
  apply lookup_lt_Some in Ha. lia.
Qed.
End ConstructorLoops.

(** * The operators of numbers

    [===], [<], [>] and [>=] on IEEE 754 numbers, through the comparison of
    their specification. *)

Ltac compare_cases :=
  repeat match goal with
  | H : context [Z.compare ?a ?b] |- _ =>
      let E := fresh "E" in destruct (Z.compare_spec a b) as [E|E|E]
  | H : context [Pos.compare_cont Eq ?a ?b] |- _ =>
      change (Pos.compare_cont Eq a b) with (Pos.compare a b) in *;
      let E := fresh "E" in destruct (Pos.compare_spec a b) as [E|E|E]
  | |- context [Z.compare ?a ?b] =>
      let E := fresh "E" in destruct (Z.compare_spec a b) as [E|E|E]
  | |- context [Pos.compare_cont Eq ?a ?b] =>
      change (Pos.compare_cont Eq a b) with (Pos.compare a b) in *;
      let E := fresh "E" in destruct (Pos.compare_spec a b) as [E|E|E]
  end; simpl in *; try discriminate; try congruence; try lia.

Lemma SFcompare_antisym (x y : spec_float) :
  SFcompare y x = option_map CompOpp (SFcompare x y).
Proof.
  destruct x as [[]|[]| |[] m1 e1], y as [[]|[]| |[] m2 e2];
    simpl; try reflexivity; compare_cases.
Qed.

Lemma SFcompare_trans (x y z : spec_float) (c1 c2 : comparison) :
  SFcompare x y = Some c1 → SFcompare y z = Some c2 →
  c1 ≠ Gt → c2 ≠ Gt →
  SFcompare x z = Some (match c1, c2 with Eq, Eq => Eq | _, _ => Lt end).
Proof.
  destruct x as [[]|[]| |[] m1 e1], y as [[]|[]| |[] m2 e2],
    z as [[]|[]| |[] m3 e3];
    simpl; intros H1 H2 N1 N2; try discriminate;
    try (injection H1 as <-); try (injection H2 as <-); try congruence;
    try (destruct c1; try congruence; reflexivity);
    try (destruct c2; try congruence; reflexivity).
  all: compare_cases.
Qed.

(** Two numbers of which neither is NaN compare. *)
Lemma SFcompare_defined (x y : spec_float) :
  SFcompare x x = Some Eq → SFcompare y y = Some Eq →
  ∃ c, SFcompare x y = Some c.
Proof.
  destruct x as [[]|[]| |[] m1 e1], y as [[]|[]| |[] m2 e2];
    simpl; intros Hx Hy; try discriminate; eauto.
Qed.

Lemma float_strict_eq (a b : float) :
  strict_eq a b = true ↔ SFcompare (Prim2SF a) (Prim2SF b) = Some Eq.
Proof.
  unfold strict_eq, float_StrictEq. rewrite FloatAxioms.eqb_spec. unfold SFeqb.
  destruct (SFcompare _ _) as [[]|]; split; congruence.
Qed.

Lemma float_js_ge (a b : float) :
  js_ge a b = true ↔
  ∃ c, SFcompare (Prim2SF b) (Prim2SF a) = Some c ∧ c ≠ Gt.
Proof.
  simpl. rewrite FloatAxioms.leb_spec. unfold SFleb.
  destruct (SFcompare _ _) as [[]|]; split; try done; try (by eauto).
  - intros (c & [= <-] & Hc). done.
  - intros (c & [=] & _).
Qed.

Lemma float_js_gt (a b : float) :
  js_gt a b = true ↔ SFcompare (Prim2SF b) (Prim2SF a) = Some Lt.
Proof.
  simpl. rewrite FloatAxioms.ltb_spec. unfold SFltb.
  destruct (SFcompare _ _) as [[]|]; split; congruence.
Qed.

#[export] Instance float_StrictEqLaws : StrictEqLaws float.
Proof.
  split.
  - intros a b. rewrite !float_strict_eq. intros Hab.
    by rewrite SFcompare_antisym, Hab.
  - intros a b c. rewrite !float_strict_eq. intros Hab Hbc.
    by rewrite (SFcompare_trans _ _ _ _ _ Hab Hbc).
Qed.

#[export] Instance float_NumberLaws : NumberLaws float.
Proof.
  split.
  - intros a b. rewrite float_js_gt, float_js_ge. intros Hlt.
    exists Lt. by split.
  - intros a b c. rewrite !float_js_ge.
    intros (c1 & Hba & Hc1) (c2 & Hcb & Hc2).
    rewrite (SFcompare_trans _ _ _ _ _ Hcb Hba) by done.
    eexists. split; [done|]. by destruct c2, c1.
  - intros a b c. rewrite float_js_ge, !float_js_gt.
    intros (c1 & Hba & Hc1) Hcb.
    by rewrite (SFcompare_trans _ _ _ _ _ Hcb Hba).
Qed.

(** Numbers other than NaN are comparable. *)
Lemma float_comparable (a b : float) :
  is_nan a = false → is_nan b = false → comparable a b.
Proof.
  unfold is_nan. rewrite !negb_false_iff.
  change (PrimFloat.eqb ?x ?y) with (strict_eq x y).
  rewrite !float_strict_eq. intros Ha Hb. unfold comparable.
  rewrite float_js_ge. intros Hgt.
  destruct (SFcompare_defined _ _ Hb Ha) as [c Hc].
  exists (CompOpp c). split.
  - by rewrite SFcompare_antisym, Hc.
  - destruct c; try done.
    apply float_js_gt in Hc. congruence.
Qed.

(** [<] on numbers, by [>] and [>=]. *)
Lemma float_lt_ge (a b : float) : js_lt a b = true → js_ge b a = true.
Proof. intros Hlt. by apply (js_gt_ge b a). Qed.

Lemma float_not_lt_ge (a b : float) :
  is_nan a = false → is_nan b = false →
  js_lt a b = false → js_ge a b = true.
Proof. intros Ha Hb Hlt. by apply (float_comparable b a). Qed.

(** Nothing is greater than NaN. *)
Lemma slot_gt_NaN (s : option float) : slot_gt s NaN = false.
Proof.
  destruct s as [x|]; [|done]. simpl.
  rewrite FloatAxioms.ltb_spec. done.
Qed.

(** * The operators of strings and numbers together *)

Lemma ascii_compare_lt_trans (a b c : ascii) :
  Ascii.compare a b = Lt → Ascii.compare b c = Lt → Ascii.compare a c = Lt.
Proof.
  unfold Ascii.compare. rewrite !N.compare_lt_iff. lia.
Qed.

Lemma string_compare_lt_trans (s t u : string) :
  String.compare s t = Lt → String.compare t u = Lt →
  String.compare s u = Lt.
Proof.
  revert t u. induction s as [|a s IH]; intros [|b t] [|c u]; simpl; try done.
  destruct (Ascii.compare a b) eqn:Hab; try done;
    destruct (Ascii.compare b c) eqn:Hbc; try done.
  - apply Ascii.compare_eq_iff in Hab as ->. rewrite Hbc. apply IH.
  - apply Ascii.compare_eq_iff in Hab as ->. by rewrite Hbc.
  - apply Ascii.compare_eq_iff in Hbc as <-. by rewrite Hab.
  - by rewrite (ascii_compare_lt_trans a b c Hab Hbc).
Qed.

Lemma string_ltb_asym (s t : string) :
  String.ltb s t = true → String.ltb t s = false.
Proof.
  unfold String.ltb. rewrite (String.compare_antisym t s).
  by destruct (String.compare s t).
Qed.

(** [s >= t] and [u < t] give [u < s]. *)
Lemma string_ltb_trans (s t u : string) :
  String.ltb s t = false → String.ltb u t = true → String.ltb u s = true.
Proof.
  unfold String.ltb. intros Hst Hut.
  destruct (String.compare u t) eqn:Hcut; try done.
  destruct (String.compare s t) eqn:Hcst; try done.
  - apply String.compare_eq_iff in Hcst as ->. by rewrite Hcut.
  - rewrite String.compare_antisym in Hcst.
    destruct (String.compare t s) eqn:Hcts; try done.
    by rewrite (string_compare_lt_trans u t s Hcut Hcts).
Qed.

#[export] Instance value_StrictEqLaws : StrictEqLaws value.
Proof.
  split.
  - intros [s ?|x] [t ?|y]; unfold strict_eq; simpl; try done.
    + rewrite !String.eqb_eq. congruence.
    + exact (strict_eq_sym (A := float) x y).
  - intros [s ?|x] [t ?|y] [u ?|z]; unfold strict_eq; simpl; try done.
    + rewrite !String.eqb_eq. congruence.
    + exact (strict_eq_trans (A := float) x y z).
Qed.

#[export] Instance value_NumberLaws : NumberLaws value.
Proof.
  split.
  - intros [s ?|x] [t ?|y]; simpl; try done.
    + intros Hts. by rewrite (string_ltb_asym t s Hts).
    + exact (js_gt_ge (V := float) x y).
  - intros [s ?|x] [t ?|y] [u ?|z]; simpl; try done.
    + rewrite !negb_true_iff. intros Hst Htu.
      destruct (String.ltb s u) eqn:Hsu; [|done].
      by rewrite (string_ltb_trans t u s Htu Hsu) in Hst.
    + exact (js_ge_trans (V := float) x y z).
  - intros [s ?|x] [t ?|y] [u ?|z]; simpl; try done.
    + rewrite negb_true_iff. apply string_ltb_trans.
    + exact (js_ge_gt_trans (V := float) x y z).
Qed.

(** Numbers other than NaN are comparable. *)
Lemma number_comparable (a b : value) : number a → number b → comparable a b.
Proof.
  destruct a as [s ?|x], b as [t ?|y]; simpl; try done.
  exact (float_comparable x y).
Qed.

Lemma value_lt_ge (a b : value) : js_lt a b = true → js_ge b a = true.
Proof.
  destruct a as [s ?|x], b as [t ?|y]; simpl; try done.
  - intros Hst. by rewrite (string_ltb_asym s t Hst).
  - exact (float_lt_ge x y).
Qed.

Lemma number_not_lt_ge (a b : value) :
  number a → number b → js_lt a b = false → js_ge a b = true.
Proof.
  destruct a as [s ?|x], b as [t ?|y]; simpl; try done.
  exact (float_not_lt_ge x y).
Qed.

(** Nothing is greater than NaN. *)
Lemma slot_gt_Num_NaN (s : option value) : slot_gt s (Num NaN) = false.
Proof.
  destruct s as [[t ?|x]|]; try done. exact (slot_gt_NaN (Some x)).
Qed.

(** * The store *)

Section StoreLemmas.
Context {E : Type} `{StrictEq E} `{Number E}.
Implicit Types (this m : object) (h : heap E) (r kr vr : loc).
Implicit Types (a b ks vs : array E) (k v : E).

Lemma read_store r a h : read r (store r a h) = a.
Proof. unfold read, store. by rewrite lookup_insert_eq. Qed.

Lemma read_store_ne r r' a h : r ≠ r' → read r (store r' a h) = read r h.
Proof. intros Hne. unfold read, store. by rewrite lookup_insert_ne. Qed.

Lemma lookup_store_ne r r' a h : r ≠ r' → store r' a h !! r = h !! r.
Proof. intros Hne. unfold store. by rewrite lookup_insert_ne. Qed.

Lemma lookup_read r h : r ∈ dom h → h !! r = Some (read r h).
Proof.
  intros [a Ha]%elem_of_dom. unfold read. by rewrite Ha.
Qed.

Lemma store_read r h : r ∈ dom h → store r (read r h) h = h.
Proof.
  intros Hr. unfold store. apply insert_id. by apply lookup_read.
Qed.

Lemma dom_store r a h : dom h ⊆ dom (store r a h).
Proof. unfold store. rewrite dom_insert. set_solver. Qed.

Lemma store_store r a b h : store r a (store r b h) = store r a h.
Proof. apply insert_insert_eq. Qed.

Lemma store_commute r r' a b h :
  r ≠ r' → store r a (store r' b h) = store r' b (store r a h).
Proof. intros Hne. unfold store. by apply insert_insert_ne. Qed.

(** Two arrays that are written again. *)
Lemma store_over kr vr ks ks' vs vs' h :
  kr ≠ vr →
  store vr vs' (store kr ks' (store vr vs (store kr ks h)))
  = store vr vs' (store kr ks' h).
Proof.
  intros Hne. rewrite (store_commute kr vr ks' vs) by done.
  by rewrite !store_store.
Qed.

Lemma arrays_store this ks vs h :
  two_arrays this →
  arrays this (store (values this) vs (store (keys this) ks h)) = (ks, vs).
Proof.
  intros Hne. unfold arrays, this_keys, this_values.
  by rewrite read_store, read_store_ne, read_store.
Qed.

Lemma this_values_store_keys this ks h :
  two_arrays this → this_values this (store (keys this) ks h) = this_values this h.
Proof.
  intros Hne. unfold this_values. apply read_store_ne.
  intros Heq. by apply Hne.
Qed.

Lemma this_keys_store_keys this ks h :
  this_keys this (store (keys this) ks h) = ks.
Proof. apply read_store. Qed.

Lemma this_values_store_values this vs h :
  this_values this (store (values this) vs h) = vs.
Proof. apply read_store. Qed.

Lemma this_keys_store_values this vs h :
  two_arrays this → this_keys this (store (values this) vs h) = this_keys this h.
Proof. intros Hne. unfold this_keys. apply read_store_ne. exact Hne. Qed.

(** One array for keys and values: the two have the same length. *)
Lemma equal_length_one_array this h :
  keys this = values this → equal_length this h.
Proof. intros Heq. unfold equal_length, this_keys, this_values. by rewrite Heq. Qed.

(** [get], [has] and [set] in terms of the first index. *)
Lemma get_firstIndex this key h :
  get this key h =
  match firstIndex (this_keys this h) key with
  | Some i => slot (this_values this h) i
  | None => None
  end.
Proof.
  unfold get, UnsortedMap_get, indexOf.
  destruct (firstIndex _ _) as [i|]; [apply at_index_of_nat|done].
Qed.

Lemma has_firstIndex this key h :
  has this key h =
  match firstIndex (this_keys this h) key with
  | Some _ => true
  | None => false
  end.
Proof.
  unfold has, UnsortedMap_has, indexOf.
  destruct (firstIndex _ _) as [i|]; [|done].
  destruct (Z.gtb_spec (Z.of_nat i) (-1)); [done|lia].
Qed.

Lemma get_lookup_arrays m x h : get m x h = lookup_arrays (arrays m h) x.
Proof. apply get_firstIndex. Qed.

Lemma has_found_arrays m x h : has m x h = found_arrays (arrays m h) x.
Proof. apply has_firstIndex. Qed.

Lemma sets_app this ops ops' h :
  sets this (ops ++ ops') h = sets this ops' (sets this ops h).
Proof. unfold sets. apply foldl_app. Qed.

(** ** [set] on an object with two arrays *)

Lemma UnsortedMap_set_store this k v h :
  two_arrays this →
  UnsortedMap_set this k v h
  = store (values this) (UnsortedMap_set_arrays (arrays this h) k v).2
      (store (keys this) (UnsortedMap_set_arrays (arrays this h) k v).1 h).
Proof.
  intros Hne.
  unfold UnsortedMap_set, UnsortedMap_set_arrays, indexOf, arrays; simpl.
  destruct (firstIndex (this_keys this h) k) as [i|]; simpl.
  - destruct (Z.eqb_spec (Z.of_nat i) (-1)); [lia|].
    by rewrite Nat2Z.id, this_values_store_keys.
  - by rewrite this_values_store_keys.
Qed.

Lemma insert_loop_store this k v i h :
  two_arrays this →
  insert_loop this k v i h
  = store (values this) (insert_loop_arrays k v i (arrays this h)).2
      (store (keys this) (insert_loop_arrays k v i (arrays this h)).1 h).
Proof.
  intros Hne. revert h. induction i as [|i IH]; intros h.
  - unfold arrays. simpl. by rewrite this_values_store_keys.
  - unfold arrays. cbn [insert_loop insert_loop_arrays].
    destruct (slot_gt (slot (this_values this h) i) v).
    + simpl. by rewrite this_values_store_keys.
    + rewrite this_values_store_keys by done. rewrite IH.
      rewrite arrays_store by done.
      destruct (insert_loop_arrays _ _ _ _) as [ks vs]. simpl.
      by apply store_over.
Qed.

Lemma SortedMap_set_store this k v h :
  two_arrays this →
  SortedMap_set this k v h
  = store (values this) (SortedMap_set_arrays (arrays this h) k v).2
      (store (keys this) (SortedMap_set_arrays (arrays this h) k v).1 h).
Proof.
  intros Hne.
  unfold SortedMap_set, SortedMap_set_arrays, remove_key, indexOf.
  unfold arrays at 1 2; simpl.
  destruct (firstIndex (this_keys this h) k) as [i|]; simpl.
  - destruct (Z.gtb_spec (Z.of_nat i) (-1)); [|lia].
    rewrite Nat2Z.id, this_values_store_keys by done.
    rewrite insert_loop_store by done.
    rewrite this_values_store_values, arrays_store by done.
    destruct (insert_loop_arrays _ _ _ _) as [ks vs]. simpl.
    by apply store_over.
  - by apply insert_loop_store.
Qed.

(** [set] writes the two arrays of the receiver as [set_arrays] says. *)
Lemma set_store m k v h :
  two_arrays m →
  set m k v h
  = store (values m) (set_arrays (constructor m) (arrays m h) k v).2
      (store (keys m) (set_arrays (constructor m) (arrays m h) k v).1 h).
Proof.
  intros Hne. unfold set, set_arrays. destruct (constructor m).
  - by apply UnsortedMap_set_store.
  - by apply SortedMap_set_store.
Qed.

Lemma arrays_set this key value h :
  two_arrays this →
  arrays this (set this key value h)
  = set_arrays (constructor this) (arrays this h) key value.
Proof.
  intros Hne. rewrite set_store by done. rewrite arrays_store by done.
  by destruct (set_arrays _ _ _ _).
Qed.

(** ** [set] writes no other array, whatever the receiver *)

Lemma insert_loop_frame this k v i h r :
  r ≠ keys this → r ≠ values this → insert_loop this k v i h !! r = h !! r.
Proof.
  intros Hk Hv. revert h. induction i as [|i IH]; intros h.
  - simpl. by rewrite !lookup_store_ne.
  - cbn [insert_loop]. destruct (slot_gt _ _).
    + by rewrite !lookup_store_ne.
    + rewrite IH. by rewrite !lookup_store_ne.
Qed.

Lemma set_frame this k v h r :
  r ≠ keys this → r ≠ values this → set this k v h !! r = h !! r.
Proof.
  intros Hk Hv. unfold set. destruct (constructor this).
  - unfold UnsortedMap_set. destruct (_ =? _)%Z; by rewrite !lookup_store_ne.
  - unfold SortedMap_set. rewrite insert_loop_frame by done.
    destruct (_ >? _)%Z; [|done]. by rewrite !lookup_store_ne.
Qed.

Lemma sets_frame this ops h r :
  r ≠ keys this → r ≠ values this → sets this ops h !! r = h !! r.
Proof.
  intros Hk Hv. revert h. induction ops as [|op ops IH]; intros h; [done|].
  change (sets this (op :: ops) h) with (sets this ops (set this op.1 op.2 h)).
  by rewrite IH, set_frame.
Qed.

(** ** Allocation *)

Lemma alloc_fresh a h : (alloc a h).1 ∉ dom h.
Proof. unfold alloc; simpl. apply is_fresh. Qed.

Lemma alloc_lookup_new a h : (alloc a h).2 !! (alloc a h).1 = Some a.
Proof. unfold alloc; simpl. apply lookup_insert_eq. Qed.

Lemma alloc_lookup_old a h r : r ∈ dom h → (alloc a h).2 !! r = h !! r.
Proof.
  intros Hr. unfold alloc; simpl. apply lookup_insert_ne.
  intros <-. by apply (is_fresh (dom h)).
Qed.

Lemma alloc_new_dom a h : (alloc a h).1 ∈ dom (alloc a h).2.
Proof. apply elem_of_dom. rewrite alloc_lookup_new. by eexists. Qed.

Lemma dom_alloc a h : dom h ⊆ dom (alloc a h).2.
Proof. unfold alloc; simpl. apply dom_store. Qed.

Lemma preserves_dom h h' r : preserves h h' → r ∈ dom h → r ∈ dom h'.
Proof.
  intros Hpre Hr. apply elem_of_dom. rewrite (Hpre _ Hr). by apply elem_of_dom.
Qed.

Lemma preserves_refl h : preserves h h.
Proof. by intros r _. Qed.

Lemma preserves_trans h1 h2 h3 :
  preserves h1 h2 → preserves h2 h3 → preserves h1 h3.
Proof.
  intros H12 H23 r Hr.
  rewrite H23 by by eapply preserves_dom. by apply H12.
Qed.

Lemma preserves_arrays this h h' :
  allocated this h → preserves h h' → arrays this h' = arrays this h.
Proof.
  intros [Hk Hv] Hpre. unfold arrays, this_keys, this_values, read.
  by rewrite (Hpre _ Hk), (Hpre _ Hv).
Qed.

(** A new array leaves the others alone. *)
Lemma preserves_alloc a h : preserves h (alloc a h).2.
Proof. intros r Hr. by apply alloc_lookup_old. Qed.

(** Writing an array that [h] does not have leaves the arrays of [h] alone. *)
Lemma preserves_store h h' r a :
  preserves h h' → r ∉ dom h → preserves h (store r a h').
Proof.
  intros Hpre Hr r' Hr'. rewrite lookup_store_ne by (intros ->; done).
  by apply Hpre.
Qed.
End StoreLemmas.

(** * The loops of the constructor of [SortedMap], in the store *)

Section SortInStore.
Context {E : Type} `{StrictEq E} `{Number E}.
Implicit Types (h : heap E) (r kr vr : loc) (a : array E) (i j n : nat).

Lemma swap_if_less_frame kr vr i j h r :
  r ≠ kr → r ≠ vr → swap_if_less kr vr i j h !! r = h !! r.
Proof.
  intros Hk Hv. unfold swap_if_less. destruct (slot_lt _ _); [|done].
  by rewrite !lookup_store_ne.
Qed.

Lemma sort_inner_frame kr vr n i j h r :
  r ≠ kr → r ≠ vr → sort_inner kr vr n i j h !! r = h !! r.
Proof.
  intros Hk Hv. revert j h. induction n as [|n IH]; intros j h; [done|].
  simpl. by rewrite IH, swap_if_less_frame.
Qed.

Lemma sort_outer_frame kr vr n i h r :
  r ≠ kr → r ≠ vr → sort_outer kr vr n i h !! r = h !! r.
Proof.
  intros Hk Hv. revert i h. induction n as [|n IH]; intros i h; [done|].
  simpl. by rewrite IH, sort_inner_frame.
Qed.

Lemma dom_swap_if_less kr vr i j h : dom h ⊆ dom (swap_if_less kr vr i j h).
Proof.
  unfold swap_if_less. destruct (slot_lt _ _); [|done].
  repeat (etransitivity; [|apply dom_store]). done.
Qed.

Lemma dom_sort_inner kr vr n i j h : dom h ⊆ dom (sort_inner kr vr n i j h).
Proof.
  revert j h. induction n as [|n IH]; intros j h; [done|]. simpl.
  etransitivity; [|apply IH]. apply dom_swap_if_less.
Qed.

Lemma dom_sort_outer kr vr n i h : dom h ⊆ dom (sort_outer kr vr n i h).
Proof.
  revert i h. induction n as [|n IH]; intros i h; [done|]. simpl.
  etransitivity; [|apply IH]. apply dom_sort_inner.
Qed.

(** On two arrays, the loops act as [sort_arrays] does. *)
Lemma swap_if_less_two_arrays kr vr i j h :
  kr ≠ vr →
  (read kr (swap_if_less kr vr i j h), read vr (swap_if_less kr vr i j h))
  = swap_if_less_arrays i j (read kr h, read vr h).
Proof.
  intros Hne. unfold swap_if_less, swap_if_less_arrays.
  destruct (slot_lt _ _); [|done].
  rewrite !read_store.
  rewrite !(read_store_ne vr kr) by done.
  rewrite !(read_store_ne kr vr) by done.
  by rewrite !read_store.
Qed.

Lemma sort_inner_two_arrays kr vr n i j h :
  kr ≠ vr →
  (read kr (sort_inner kr vr n i j h), read vr (sort_inner kr vr n i j h))
  = sort_inner_arrays n i j (read kr h, read vr h).
Proof.
  intros Hne. revert j h. induction n as [|n IH]; intros j h; [done|].
  simpl. by rewrite IH, swap_if_less_two_arrays.
Qed.

Lemma sort_outer_two_arrays kr vr n i h :
  kr ≠ vr →
  (read kr (sort_outer kr vr n i h), read vr (sort_outer kr vr n i h))
  = sort_outer_arrays n i (read kr h, read vr h).
Proof.
  intros Hne. revert i h. induction n as [|n IH]; intros i h; [done|].
  simpl. by rewrite IH, sort_inner_two_arrays.
Qed.

(** On one array, every exchange of two values is undone by the exchange of
    the two keys. *)
Lemma exchange_twice a i j :
  i < length a → j < length a → i ≠ j →
  <[i := slot a i]> (<[j := slot a j]> (<[i := slot a j]> (<[j := slot a i]> a)))
  = a.
Proof.
  intros Hi Hj Hne. apply list_eq. intros n.
  destruct (lookup_lt_is_Some_2 a i Hi) as [x Hx].
  destruct (lookup_lt_is_Some_2 a j Hj) as [y Hy].
  rewrite (slot_lookup _ _ _ Hx), (slot_lookup _ _ _ Hy).
  destruct (decide (n = i)) as [->|Hni].
  - by rewrite list_lookup_insert_eq by (by rewrite !length_insert).
  - rewrite list_lookup_insert_ne by done.
    destruct (decide (n = j)) as [->|Hnj].
    + by rewrite list_lookup_insert_eq by (by rewrite !length_insert).
    + by rewrite !list_lookup_insert_ne by done.
Qed.

Lemma swap_if_less_one_array r i j h :
  i < length (read r h) → j < length (read r h) → i ≠ j →
  read r (swap_if_less r r i j h) = read r h.
Proof.
  intros Hi Hj Hne. unfold swap_if_less. destruct (slot_lt _ _); [|done].
  rewrite !read_store. set (a := read r h) in *.
  rewrite (assign_lt a j) by done.
  rewrite (assign_lt (<[j := slot a i]> a) i) by (by rewrite length_insert).
  set (a' := <[i := slot a j]> (<[j := slot a i]> a)).
  assert (length a' = length a) as Hlen
    by (unfold a'; by rewrite !length_insert).
  assert (slot a' j = slot a i) as ->.
  { unfold slot at 1, a'. rewrite list_lookup_insert_ne by done.
    by rewrite list_lookup_insert_eq. }
  assert (slot a' i = slot a j) as ->.
  { unfold slot at 1, a'.
    by rewrite list_lookup_insert_eq by (by rewrite length_insert). }
  rewrite (assign_lt a' j) by lia.
  rewrite (assign_lt (<[j := slot a j]> a') i) by (rewrite length_insert; lia).
  by apply exchange_twice.
Qed.

Lemma sort_inner_one_array r n i j h :
  i < j → j + n = length (read r h) →
  read r (sort_inner r r n i j h) = read r h.
Proof.
  revert j h. induction n as [|n IH]; intros j h Hij Hn; [done|].
  simpl. assert (read r (swap_if_less r r i j h) = read r h) as Hswap
    by (apply swap_if_less_one_array; lia).
  rewrite IH; [done|lia|]. rewrite Hswap. lia.
Qed.

Lemma sort_outer_one_array r n i h :
  i + n = length (read r h) →
  read r (sort_outer r r n i h) = read r h.
Proof.
  revert i h. induction n as [|n IH]; intros i h Hn; [done|].
  simpl.
  assert (read r (sort_inner r r (length (read r h) - S i) i (S i) h)
          = read r h) as Hinner
    by (apply sort_inner_one_array; lia).
  rewrite IH; [done|]. rewrite Hinner. lia.
Qed.
End SortInStore.

(** * Constructors and [map] *)

Section Constructors.
Context {E : Type} `{StrictEq E} `{Number E}.
Implicit Types (this m : object) (h : heap E).

(** [new UnsortedMap()], also when reached through [super()]: two new,
    empty arrays. *)
Lemma UnsortedMap_constructor_empty (cls : class) h :
  let '(m, h') := UnsortedMap_constructor cls None None h in
  constructor m = cls ∧ arrays m h' = ([], []) ∧ preserves h h' ∧
  two_arrays m ∧ allocated m h' ∧
  (keys m ∉ dom h) ∧ (values m ∉ dom h).
Proof.
  unfold UnsortedMap_constructor, default_array.
  pose proof (alloc_fresh [] h) as Hk.
  pose proof (alloc_new_dom [] h) as Hkr.
  pose proof (alloc_lookup_new [] h) as Hnew.
  pose proof (dom_alloc [] h) as Hdom.
  pose proof (preserves_alloc [] h) as Hpre.
  destruct (alloc [] h) as [kr h1]. simpl in Hk, Hkr, Hnew, Hdom, Hpre.
  pose proof (alloc_fresh [] h1) as Hv.
  pose proof (alloc_new_dom [] h1) as Hvr.
  pose proof (alloc_lookup_new [] h1) as Hnew1.
  pose proof (dom_alloc [] h1) as Hdom1.
  pose proof (preserves_alloc [] h1) as Hpre1.
  destruct (alloc [] h1) as [vr h2]. simpl in Hv, Hvr, Hnew1, Hdom1, Hpre1.
  split; [done|]. split.
  - unfold arrays, this_keys, this_values, read; simpl.
    by rewrite Hnew1, (Hpre1 _ Hkr), Hnew.
  - split; [by eapply preserves_trans|].
    split; [unfold two_arrays; simpl; by intros ->|].
    split; [split; simpl; [by apply Hdom1|done]|].
    simpl. split; [done|]. intros Hin. by apply Hv, Hdom.
Qed.

(** [new UnsortedMap(keys, values)] keeps the two arrays it is given. *)
Lemma UnsortedMap_constructor_args (cls : class) (kr vr : loc) h :
  UnsortedMap_constructor cls (Some kr) (Some vr) h
  = ({| constructor := cls; keys := kr; values := vr |}, h).
Proof. done. Qed.

Lemma default_array_preserves (arg : option loc) h :
  preserves h (default_array arg h).2.
Proof.
  destruct arg as [r|]; simpl; [apply preserves_refl|apply preserves_alloc].
Qed.

(** The constructor of [SortedMap] ends in [super()], in some store. *)
Lemma SortedMap_constructor_super (keys values : option loc) h :
  ∃ h1, SortedMap_constructor keys values h
        = UnsortedMap_constructor SortedMap None None h1.
Proof.
  unfold SortedMap_constructor.
  destruct (default_array keys h) as [kr h1].
  destruct (default_array values h1) as [vr h2]. eauto.
Qed.

Lemma SortedMap_constructor_empty (keys values : option loc) h :
  let '(m, h') := SortedMap_constructor keys values h in
  constructor m = SortedMap ∧ arrays m h' = ([], []) ∧
  two_arrays m ∧ allocated m h'.
Proof.
  destruct (SortedMap_constructor_super keys values h) as [h1 ->].
  pose proof (UnsortedMap_constructor_empty SortedMap h1) as Hnew.
  destruct (UnsortedMap_constructor SortedMap None None h1) as [m h'].
  by destruct Hnew as (? & ? & _ & ? & ? & _).
Qed.

(** Called on two arguments, the constructor sorts them and calls
    [super()]. *)
Lemma SortedMap_constructor_args (kr vr : loc) h :
  SortedMap_constructor (Some kr) (Some vr) h
  = UnsortedMap_constructor SortedMap None None
      (sort_outer kr vr (length (read vr h)) 0 h).
Proof. done. Qed.

(** Called on two arrays that [h0] does not have, the constructor of
    [SortedMap] leaves the arrays of [h0] alone, and takes none of them
    for the object. *)
Lemma SortedMap_constructor_preserves (kr vr : loc) h0 h :
  preserves h0 h → kr ∉ dom h0 → vr ∉ dom h0 →
  let '(m, h') := SortedMap_constructor (Some kr) (Some vr) h in
  preserves h0 h' ∧ (keys m ∉ dom h0) ∧ (values m ∉ dom h0).
Proof.
  intros Hpre Hkr Hvr. rewrite SortedMap_constructor_args.
  set (h1 := sort_outer kr vr (length (read vr h)) 0 h).
  assert (preserves h0 h1) as Hpre1.
  { intros r Hr. unfold h1.
    rewrite sort_outer_frame by (intros ->; done). by apply Hpre. }
  pose proof (UnsortedMap_constructor_empty SortedMap h1) as Hnew.
  destruct (UnsortedMap_constructor SortedMap None None h1) as [m h'].
  destruct Hnew as (_ & _ & Hpre' & _ & _ & Hk & Hv).
  split; [by eapply preserves_trans|].
  split; intros Hin; [apply Hk|apply Hv]; by eapply preserves_dom.
Qed.

(** [map]: the two arrays it creates, and the call of the constructor. *)
Lemma map_unfold this (callback : E → option E → E) h :
  let ks := this_keys this h in
  let vs := array_map (λ key i, callback key (slot (this_values this h) i)) ks in
  let kr := (alloc ks h).1 in
  let h1 := (alloc ks h).2 in
  let vr := (alloc vs h1).1 in
  let h2 := (alloc vs h1).2 in
  map this callback h = new (constructor this) (Some kr) (Some vr) h2 ∧
  preserves h h2 ∧
  (kr ∉ dom h) ∧ (vr ∉ dom h) ∧ kr ≠ vr ∧
  read kr h2 = ks ∧ read vr h2 = vs.
Proof.
  intros ks vs kr h1 vr h2.
  assert (kr ∈ dom h1) as Hkr by apply alloc_new_dom.
  assert (vr ∉ dom h1) as Hvr by apply alloc_fresh.
  split; [done|]. split.
  { eapply preserves_trans; apply preserves_alloc. }
  split; [apply alloc_fresh|].
  split; [intros Hin; apply Hvr; by apply (dom_alloc ks h)|].
  split; [by intros Heq; rewrite Heq in Hkr|].
  split.
  - unfold read, h2. rewrite alloc_lookup_old by done.
    unfold h1, kr. by rewrite alloc_lookup_new.
  - unfold read, h2, vr. by rewrite alloc_lookup_new.
Qed.

(** [map] leaves the arrays of the store alone; the arrays of its result
    are two new arrays. *)
Lemma map_result_fresh this (callback : E → option E → E) h :
  let '(r, h') := map this callback h in
  preserves h h' ∧ two_arrays r ∧
  (keys r ∉ dom h) ∧ (values r ∉ dom h).
Proof.
  destruct (map_unfold this callback h)
    as (-> & Hpre & Hkr & Hvr & Hne & _ & _).
  unfold new. destruct (constructor this).
  - by rewrite UnsortedMap_constructor_args.
  - pose proof (SortedMap_constructor_preserves _ _ h _ Hpre Hkr Hvr) as Hcons.
    pose proof (SortedMap_constructor_empty
                  (Some (alloc (this_keys this h) h).1)
                  (Some (alloc (array_map (λ key i, callback key
                           (slot (this_values this h) i)) (this_keys this h))
                           (alloc (this_keys this h) h).2).1)
                  (alloc (array_map (λ key i, callback key
                           (slot (this_values this h) i)) (this_keys this h))
                           (alloc (this_keys this h) h).2).2) as Hempty.
    destruct (SortedMap_constructor _ _ _) as [r h'].
    destruct Hcons as (? & ? & ?). by destruct Hempty as (_ & _ & ? & _).
Qed.

Lemma map_preserves this (callback : E → option E → E) h :
  preserves h (map this callback h).2.
Proof.
  pose proof (map_result_fresh this callback h) as Hmap.
  destruct (map this callback h) as [r h']. by destruct Hmap as [? _].
Qed.

(** [map] on an [UnsortedMap]: the result holds the copy of the keys and
    the array of the transformed values. *)
Lemma map_UnsortedMap m (f : E → option E → E) h :
  constructor m = UnsortedMap →
  let '(r, h') := map m f h in
  constructor r = UnsortedMap ∧
  this_keys r h' = this_keys m h ∧
  this_values r h'
  = array_map (λ key i, f key (slot (this_values m h) i)) (this_keys m h).
Proof.
  intros Hcls.
  destruct (map_unfold m f h) as (-> & _ & _ & _ & _ & Hks & Hvs).
  rewrite Hcls. unfold new. rewrite UnsortedMap_constructor_args.
  by split.
Qed.

(** [map] on a [SortedMap]: the constructor drops what it is given. *)
Lemma map_SortedMap m (f : E → option E → E) h :
  constructor m = SortedMap →
  let '(r, h') := map m f h in
  constructor r = SortedMap ∧ arrays r h' = ([], []).
Proof.
  intros Hcls. destruct (map_unfold m f h) as (-> & _).
  rewrite Hcls. unfold new.
  pose proof (SortedMap_constructor_empty
                (Some (alloc (this_keys m h) h).1)
                (Some (alloc (array_map (λ key i, f key
                         (slot (this_values m h) i)) (this_keys m h))
                         (alloc (this_keys m h) h).2).1)
                (alloc (array_map (λ key i, f key
                         (slot (this_values m h) i)) (this_keys m h))
                         (alloc (this_keys m h) h).2).2) as Hempty.
  destruct (SortedMap_constructor _ _ _) as [r h'].
  by destruct Hempty as (? & ? & _).
Qed.
End Constructors.

(** * The constructor of [SortedMap] and [map] *)

Section ConstructorClaims.
Context {E : Type} `{StrictEq E} `{Number E}.
Implicit Types (m : object) (h : heap E).

(** C1.  Whatever keys and values a [SortedMap] is constructed from, its
    storage is empty: [get] gives [undefined] for every key, the keys handed
    to the constructor included. *)
Theorem C1_SortedMap_constructor_starts_empty
    (keys values : option loc) h :
  let '(m, h') := SortedMap_constructor keys values h in
  this_keys m h' = [] ∧ this_values m h' = [] ∧
  ∀ k, get m k h' = None ∧ has m k h' = false.
Proof.
  pose proof (SortedMap_constructor_empty keys values h) as Hnew.
  destruct (SortedMap_constructor keys values h) as [m h'].
  destruct Hnew as (_ & Harr & _). injection Harr as Hks Hvs.
  split; [done|]. split; [done|]. intros k.
  by rewrite get_firstIndex, has_firstIndex, Hks.
Qed.

(** C10.  [map] on a [SortedMap] returns an empty [SortedMap], whatever the
    receiver holds: the copied keys and the new values go to the
    constructor, which drops them. *)
Theorem C10_map_of_SortedMap_is_empty m (f : E → option E → E) h :
  constructor m = SortedMap →
  let '(r, h') := map m f h in
  constructor r = SortedMap ∧ this_keys r h' = [] ∧ this_values r h' = [] ∧
  ∀ k, get r k h' = None ∧ has r k h' = false.
Proof.
  intros Hcls. pose proof (map_SortedMap m f h Hcls) as Hmap.
  destruct (map m f h) as [r h']. destruct Hmap as [Hr Harr].
  injection Harr as Hks Hvs. split; [done|]. split; [done|]. split; [done|].
  intros k. by rewrite get_firstIndex, has_firstIndex, Hks.
Qed.

(** X17.  [map] leaves the receiver's keys and values as they were and
    returns an object of the receiver's class.  On an [UnsortedMap] the
    result has the receiver's keys, in the same order, and
    [f(keys[i], values[i])] at every index [i]. *)
Theorem X17_map_keeps_receiver_and_class m (f : E → option E → E) h :
  allocated m h →
  (let '(r, h') := map m f h in
   arrays m h' = arrays m h ∧ constructor r = constructor m) ∧
  (constructor m = UnsortedMap → map_keeps_keys m f h).
Proof.
  intros Halloc.
  assert (arrays m (map m f h).2 = arrays m h) as Hsame.
  { apply preserves_arrays; [done|]. apply map_preserves. }
  split.
  - destruct (constructor m) eqn:Hcls.
    + pose proof (map_UnsortedMap m f h Hcls) as Hmap.
      destruct (map m f h) as [r h']. by destruct Hmap as (-> & _).
    + pose proof (map_SortedMap m f h Hcls) as Hmap.
      destruct (map m f h) as [r h']. by destruct Hmap as (-> & _).
  - intros Hcls. unfold map_keeps_keys.
    pose proof (map_UnsortedMap m f h Hcls) as Hmap.
    destruct (map m f h) as [r h']. simpl in Hsame.
    destruct Hmap as (Hr & Hks & Hvs).
    split; [done|]. split; [congruence|]. split; [done|].
    intros i key Hi. rewrite Hvs, lookup_array_map, Hi. done.
Qed.
End ConstructorClaims.

(** * [upsert] and the lengths of the two arrays *)

Section UpsertAndLength.
Context {E : Type} `{StrictEq E} `{Number E}.
Implicit Types (m : object) (h : heap E) (k v : E).

Lemma equal_length_set m h k v :
  equal_length m h → equal_length m (set m k v h).
Proof.
  intros Hlen.
  destruct (decide (keys m = values m)) as [Heq|Hne];
    [by apply equal_length_one_array|].
  unfold equal_length.
  change (length (arrays m (set m k v h)).1 = length (arrays m (set m k v h)).2).
  rewrite arrays_set by done. unfold set_arrays, arrays.
  destruct (constructor m).
  - by apply length_UnsortedMap_set.
  - by apply length_SortedMap_set.
Qed.

(** C7.  [m.upsert(k, f)] leaves [m] as [m.set(k, f(m.get(k)))] does, [get]
    being read in the state before the call; [f] receives [undefined] when
    [k] is missing.  (When [keys] and [values] are two arrays, that is
    [set_arrays] on the pair of them.) *)
Theorem C7_upsert_is_set_of_get m k (f : option E → E) h :
  upsert m k f h = set m k (f (get m k h)) h ∧
  (two_arrays m →
   arrays m (upsert m k f h)
   = set_arrays (constructor m) (arrays m h) k (f (get m k h))) ∧
  (has m k h = false →
   get m k h = None ∧ upsert m k f h = set m k (f None) h).
Proof.
  split; [done|]. split.
  - intros Hne. unfold upsert. by apply arrays_set.
  - rewrite has_firstIndex. intros Hhas.
    assert (get m k h = None) as Hget.
    { rewrite get_firstIndex. by destruct (firstIndex _ _). }
    split; [done|]. unfold upsert. by rewrite Hget.
Qed.

(** C9.  A container created empty, or from keys and values of the same
    length, has keys and values of the same length, and [set], [upsert] and
    [map] keep it so, in both classes. *)
Theorem C9_keys_and_values_have_equal_length :
  (∀ h, let '(m, h') := new UnsortedMap None None h in equal_length m h') ∧
  (∀ (kr vr : loc) h,
     length (read kr h) = length (read vr h) →
     let '(m, h') := new UnsortedMap (Some kr) (Some vr) h in
     equal_length m h') ∧
  (∀ keys values h,
     let '(m, h') := new SortedMap keys values h in equal_length m h') ∧
  (∀ m h k v, equal_length m h → equal_length m (set m k v h)) ∧
  (∀ m h k (f : option E → E),
     equal_length m h → equal_length m (upsert m k f h)) ∧
  (∀ m h (f : E → option E → E),
     let '(r, h') := map m f h in
     equal_length r h' ∧
     (allocated m h → equal_length m h → equal_length m h')).
Proof.
  split; [|split; [|split; [|split; [|split]]]].
  - intros h. unfold new.
    pose proof (UnsortedMap_constructor_empty UnsortedMap h) as Hnew.
    destruct (UnsortedMap_constructor UnsortedMap None None h) as [m h'].
    destruct Hnew as (_ & Harr & _). injection Harr as Hks Hvs.
    unfold equal_length. by rewrite Hks, Hvs.
  - intros kr vr h Hlen. unfold new. by rewrite UnsortedMap_constructor_args.
  - intros keys values h. unfold new.
    pose proof (SortedMap_constructor_empty keys values h) as Hnew.
    destruct (SortedMap_constructor keys values h) as [m h'].
    destruct Hnew as (_ & Harr & _). injection Harr as Hks Hvs.
    unfold equal_length. by rewrite Hks, Hvs.
  - intros m h k v. apply equal_length_set.
  - intros m h k f. unfold upsert. apply equal_length_set.
  - intros m h f.
    pose proof (map_preserves m f h) as Hpre.
    destruct (constructor m) eqn:Hcls.
    + pose proof (map_UnsortedMap m f h Hcls) as Hmap.
      destruct (map m f h) as [r h']. destruct Hmap as (_ & Hks & Hvs).
      split.
      * unfold equal_length. by rewrite Hks, Hvs, length_array_map.
      * intros Halloc Hlen. unfold equal_length.
        change (length (arrays m h').1 = length (arrays m h').2).
        by rewrite (preserves_arrays m h h' Halloc Hpre).
    + pose proof (map_SortedMap m f h Hcls) as Hmap.
      destruct (map m f h) as [r h']. destruct Hmap as (_ & Harr).
      injection Harr as Hks Hvs. split.
      * unfold equal_length. by rewrite Hks, Hvs.
      * intros Halloc Hlen. unfold equal_length.
        change (length (arrays m h').1 = length (arrays m h').2).
        by rewrite (preserves_arrays m h h' Halloc Hpre).
Qed.
End UpsertAndLength.

(** * [UnsortedMap]: [get], [has] and the order of the keys *)

Section UnsortedClaims.
Context {E : Type} `{StrictEqLaws E} `{Number E}.
Implicit Types (m : object) (h : heap E) (k v x : E).
Implicit Types (ops : list (E * E)).

Lemma set_UnsortedMap m h k v :
  constructor m = UnsortedMap → two_arrays m →
  arrays m (set m k v h) = UnsortedMap_set_arrays (arrays m h) k v.
Proof. intros Hcls Hne. by rewrite arrays_set, Hcls. Qed.

(** [get] and [has] after one [set]. *)
Lemma get_set_UnsortedMap m h k v x :
  constructor m = UnsortedMap → two_arrays m → equal_length m h →
  get m x (set m k v h) = if strict_eq k x then Some v else get m x h.
Proof.
  intros Hcls Hne Hlen. rewrite !get_firstIndex.
  change (this_keys m (set m k v h)) with (arrays m (set m k v h)).1.
  change (this_values m (set m k v h)) with (arrays m (set m k v h)).2.
  rewrite (set_UnsortedMap _ _ _ _ Hcls Hne).
  by apply lookup_UnsortedMap_set.
Qed.

Lemma has_set_UnsortedMap m h k v x :
  constructor m = UnsortedMap → two_arrays m →
  has m x (set m k v h) = strict_eq k x || has m x h.
Proof.
  intros Hcls Hne. rewrite !has_firstIndex.
  change (this_keys m (set m k v h)) with (arrays m (set m k v h)).1.
  rewrite (set_UnsortedMap _ _ _ _ Hcls Hne).
  apply found_UnsortedMap_set.
Qed.

Lemma equal_length_sets m h ops :
  equal_length m h → equal_length m (sets m ops h).
Proof.
  revert h. induction ops as [|op ops IH]; intros h Hlen; [done|].
  apply IH. by apply equal_length_set.
Qed.

(** Calls of [set] with other keys do not change what [get] and [has] say
    of [x]. *)
Lemma get_has_sets_others m h ops x :
  constructor m = UnsortedMap → two_arrays m → equal_length m h →
  Forall (λ op, strict_eq op.1 x = false) ops →
  get m x (sets m ops h) = get m x h ∧ has m x (sets m ops h) = has m x h.
Proof.
  intros Hcls Hne Hlen Hops. revert h Hlen.
  induction Hops as [|op ops Hop _ IH]; intros h Hlen; [done|].
  change (sets m (op :: ops) h) with (sets m ops (set m op.1 op.2 h)).
  destruct (IH (set m op.1 op.2 h)) as [-> ->].
  { by apply equal_length_set. }
  by rewrite get_set_UnsortedMap, has_set_UnsortedMap, Hop.
Qed.

(** C5, as amended.  In an [UnsortedMap] whose keys and values are two
    arrays of the same length, after any calls of [set], [get(k)] is the
    value of the latest call whose key is [=== k] and [has(k)] is true; when
    no call had such a key, [get] and [has] answer as before the calls,
    which in a container created empty is [undefined] and [false]. *)
Theorem C5_get_has_after_sets m h ops k :
  constructor m = UnsortedMap → two_arrays m → equal_length m h →
  (∀ ops1 k' v ops2,
     ops = ops1 ++ (k', v) :: ops2 →
     strict_eq k' k = true →
     Forall (λ op, strict_eq op.1 k = false) ops2 →
     get m k (sets m ops h) = Some v ∧ has m k (sets m ops h) = true) ∧
  (Forall (λ op, strict_eq op.1 k = false) ops →
     get m k (sets m ops h) = get m k h ∧
     has m k (sets m ops h) = has m k h) ∧
  (this_keys m h = [] →
     Forall (λ op, strict_eq op.1 k = false) ops →
     get m k (sets m ops h) = None ∧ has m k (sets m ops h) = false).
Proof.
  intros Hcls Hne Hlen. split; [|split].
  - intros ops1 k' v ops2 -> Hk Hops2.
    rewrite sets_app.
    change (sets m ((k', v) :: ops2) (sets m ops1 h))
      with (sets m ops2 (set m k' v (sets m ops1 h))).
    pose proof (equal_length_sets m h ops1 Hlen) as Hlen1.
    destruct (get_has_sets_others m (set m k' v (sets m ops1 h)) ops2 k)
      as [-> ->]; [done|done|by apply equal_length_set|done|].
    by rewrite get_set_UnsortedMap, has_set_UnsortedMap, Hk.
  - by apply get_has_sets_others.
  - intros Hempty Hops.
    destruct (get_has_sets_others m h ops k Hcls Hne Hlen Hops) as [-> ->].
    by rewrite get_firstIndex, has_firstIndex, Hempty.
Qed.

(** The index of a key that is found does not change. *)
Lemma indexOf_sets_found m h ops x i :
  constructor m = UnsortedMap → two_arrays m →
  indexOf (this_keys m h) x = Z.of_nat i →
  indexOf (this_keys m (sets m ops h)) x = Z.of_nat i.
Proof.
  intros Hcls Hne. revert h. induction ops as [|op ops IH]; intros h Hx; [done|].
  change (sets m (op :: ops) h) with (sets m ops (set m op.1 op.2 h)).
  apply IH.
  change (this_keys m (set m op.1 op.2 h))
    with (arrays m (set m op.1 op.2 h)).1.
  rewrite (set_UnsortedMap _ _ _ _ Hcls Hne).
  destruct (indexOf_inv _ _ _ Hx) as [[? _]|(i' & Hi' & Hf)]; [lia|].
  apply Nat2Z.inj in Hi' as <-.
  apply indexOf_Some. by apply firstIndex_UnsortedMap_set.
Qed.

(** A key that is not found is, after more calls, still not found or at an
    index past the old end of the keys. *)
Lemma indexOf_sets_new m h ops x :
  constructor m = UnsortedMap → two_arrays m →
  indexOf (this_keys m h) x = (-1)%Z →
  indexOf (this_keys m (sets m ops h)) x = (-1)%Z ∨
  (Z.of_nat (length (this_keys m h))
   ≤ indexOf (this_keys m (sets m ops h)) x)%Z.
Proof.
  intros Hcls Hne. revert h.
  induction ops as [|op ops IH]; intros h Hx; [by left|].
  change (sets m (op :: ops) h) with (sets m ops (set m op.1 op.2 h)).
  destruct (indexOf_inv _ _ _ Hx) as [[_ Hf]|(i' & Hi' & _)]; [|lia].
  assert (length (this_keys m h) ≤ length (this_keys m (set m op.1 op.2 h)))
    as Hgrow.
  { change (this_keys m (set m op.1 op.2 h))
      with (arrays m (set m op.1 op.2 h)).1.
    rewrite (set_UnsortedMap _ _ _ _ Hcls Hne).
    apply length_keys_UnsortedMap_set. }
  destruct (firstIndex_UnsortedMap_set_new (this_keys m h) (this_values m h)
              op.1 op.2 x Hf) as [Hnone|Hend].
  - destruct (IH (set m op.1 op.2 h)) as [Hn|Hn]; [|by left|right; lia].
    change (this_keys m (set m op.1 op.2 h))
      with (arrays m (set m op.1 op.2 h)).1.
    rewrite (set_UnsortedMap _ _ _ _ Hcls Hne). by apply indexOf_None.
  - right. erewrite indexOf_sets_found; [reflexivity|done|done|].
    change (this_keys m (set m op.1 op.2 h))
      with (arrays m (set m op.1 op.2 h)).1.
    rewrite (set_UnsortedMap _ _ _ _ Hcls Hne). by apply indexOf_Some.
Qed.
End UnsortedClaims.

Section SetClaims.
Context {E : Type} `{StrictEqLaws E} `{Number E}.
Implicit Types (m : object) (h : heap E) (k v : E).

Lemma store_twice (r r' : loc) (ks vs : array E) h :
  r ≠ r' →
  store r' vs (store r ks (store r' vs (store r ks h)))
  = store r' vs (store r ks h).
Proof. apply store_over. Qed.

(** C8, as amended.  For a key that is [===] itself (any key but NaN), a
    container whose keys and values are two arrays of the same length and,
    in a [SortedMap], whose keys are distinct: [set(k, v)] twice leaves the
    container, and the whole store, as [set(k, v)] once does. *)
Theorem C8_set_twice_is_set_once m h k v :
  strict_eq k k = true →
  two_arrays m → equal_length m h →
  (constructor m = SortedMap → distinct_keys (this_keys m h)) →
  set m k v (set m k v h) = set m k v h ∧
  arrays m (set m k v (set m k v h)) = arrays m (set m k v h).
Proof.
  intros Hk Hne Hlen Hdist.
  assert (set m k v (set m k v h) = set m k v h) as Hsame; [|by rewrite Hsame].
  rewrite (set_store m k v (set m k v h)), arrays_set by done.
  assert (set_arrays (constructor m)
            (set_arrays (constructor m) (arrays m h) k v) k v
          = set_arrays (constructor m) (arrays m h) k v) as ->.
  { unfold set_arrays, arrays. destruct (constructor m).
    - by apply UnsortedMap_set_twice.
    - apply SortedMap_set_twice; [done|done|by apply Hdist]. }
  rewrite (set_store m k v h) by done. by apply store_twice.
Qed.

(** What a [SortedMap] is after its constructor and calls of [set]: the two
    arrays have the same length and the keys are distinct. *)
Lemma SortedMap_sets_invariant m h ops :
  constructor m = SortedMap → two_arrays m →
  equal_length m h → distinct_keys (this_keys m h) →
  equal_length m (sets m ops h) ∧ distinct_keys (this_keys m (sets m ops h)).
Proof.
  intros Hcls Hne. revert h.
  induction ops as [|op ops IH]; intros h Hlen Hdist.
  - done.
  - change (sets m (op :: ops) h) with (sets m ops (set m op.1 op.2 h)).
    apply IH; [by apply equal_length_set|].
    change (this_keys m (set m op.1 op.2 h))
      with (arrays m (set m op.1 op.2 h)).1.
    rewrite arrays_set, Hcls by done. by apply distinct_keys_SortedMap_set.
Qed.

(** [UnsortedMap.set]: a key that is found is written where it is found; a
    key that is not found goes to the end. *)
Lemma UnsortedMap_set_in_place m h k v i :
  constructor m = UnsortedMap → two_arrays m →
  indexOf (this_keys m h) k = Z.of_nat i →
  this_keys m (set m k v h) = <[i := Some k]> (this_keys m h) ∧
  this_values m (set m k v h) = assign (this_values m h) i (Some v).
Proof.
  intros Hcls Hne Hi.
  destruct (indexOf_inv _ _ _ Hi) as [[? _]|(i' & Hi' & Hf)]; [lia|].
  apply Nat2Z.inj in Hi' as <-.
  pose proof (set_UnsortedMap m h k v Hcls Hne) as Hset.
  unfold arrays at 2 in Hset.
  rewrite (UnsortedMap_set_found _ _ _ _ _ Hf) in Hset.
  by injection Hset.
Qed.

Lemma UnsortedMap_set_at_end m h k v :
  constructor m = UnsortedMap → two_arrays m →
  indexOf (this_keys m h) k = (-1)%Z →
  this_keys m (set m k v h) = this_keys m h ++ [Some k] ∧
  this_values m (set m k v h) = this_values m h ++ [Some v].
Proof.
  intros Hcls Hne Hi.
  destruct (indexOf_inv _ _ _ Hi) as [[_ Hf]|(i' & Hi' & _)]; [|lia].
  pose proof (set_UnsortedMap m h k v Hcls Hne) as Hset.
  unfold arrays at 2 in Hset.
  rewrite (UnsortedMap_set_missing _ _ _ _ Hf) in Hset.
  by injection Hset.
Qed.
End SetClaims.

(** * The order kept by [SortedMap.set], in the store *)

Section SortedOrderInStore.
Context {E : Type} `{StrictEq E} `{NumberLaws E}.
Implicit Types (m : object) (h : heap E) (k v : E) (P : E → Prop).

(** After its constructor and calls of [set] with comparable values, the
    values of a [SortedMap] are sorted. *)
Lemma SortedMap_sets_sorted P m h ops :
  constructor m = SortedMap → two_arrays m →
  (∀ a b, P a → P b → comparable a b) →
  Forall (λ op, P op.2) ops →
  equal_length m h → sorted_values P (this_values m h) →
  sorted_values P (this_values m (sets m ops h)).
Proof.
  intros Hcls Hne Hcmp Hops. revert h.
  induction Hops as [|op ops Hop _ IH]; intros h Hlen Hsorted; [done|].
  change (sets m (op :: ops) h) with (sets m ops (set m op.1 op.2 h)).
  apply IH; [by apply equal_length_set|].
  change (this_values m (set m op.1 op.2 h))
    with (arrays m (set m op.1 op.2 h)).2.
  rewrite arrays_set, Hcls by done. by apply sorted_values_SortedMap_set.
Qed.

(** The values of a [SortedMap], after its constructor and calls of [set]
    with values that are pairwise comparable, do not increase. *)
Lemma descending_after_sets
    (keys values : option loc) (h0 : heap E) (ops : list (E * E)) :
  (∀ a b, a ∈ ops.*2 → b ∈ ops.*2 → comparable a b) →
  let '(m, h) := new SortedMap keys values h0 in
  descending (this_values m (sets m ops h)).
Proof.
  intros Hcmp. unfold new.
  pose proof (SortedMap_constructor_empty keys values h0) as Hnew.
  destruct (SortedMap_constructor keys values h0) as [m h].
  destruct Hnew as (Hcls & Harr & Hne & _). injection Harr as Hks Hvs.
  apply (sorted_values_descending (λ a, a ∈ ops.*2)).
  apply SortedMap_sets_sorted; try done.
  - apply Forall_forall. intros op Hop. apply list_elem_of_fmap. eauto.
  - unfold equal_length. by rewrite Hks, Hvs.
  - rewrite Hvs. apply sorted_values_nil.
Qed.

End SortedOrderInStore.

(** C2, as amended.  When every value given to [set] is a number other
    than NaN, the values of a [SortedMap], after its constructor and any
    calls of [set], do not increase: [values[i] >= values[i + 1]] at every
    adjacent pair of indices. *)
Theorem C2_values_descend_without_NaN
    (keys values : option loc) (h0 : heap value)
    (ops : list (value * value)) :
  Forall (λ op, number op.2) ops →
  let '(m, h) := new SortedMap keys values h0 in
  descending (this_values m (sets m ops h)).
Proof.
  intros Hops. apply descending_after_sets.
  rewrite Forall_forall in Hops.
  intros a b Ha Hb.
  apply list_elem_of_fmap in Ha as (opa & -> & Ha).
  apply list_elem_of_fmap in Hb as (opb & -> & Hb).
  apply number_comparable; by apply Hops.
Qed.

(** * Further properties of [get], [has], [set] and [upsert] *)

Section SetLaws.
Context {E : Type} `{StrictEqLaws E} `{Number E}.
Implicit Types (m : object) (h : heap E) (k x v : E).

(** [get] and [has] after [set], in both classes. *)
Lemma get_set m h k v x :
  two_arrays m → equal_length m h →
  (constructor m = SortedMap → strict_eq k x = true →
   distinct_keys (this_keys m h)) →
  get m x (set m k v h) = if strict_eq k x then Some v else get m x h.
Proof.
  intros Hne Hlen Hdist. rewrite !get_lookup_arrays, arrays_set by done.
  unfold set_arrays, arrays. destruct (constructor m).
  - by apply lookup_UnsortedMap_set.
  - apply lookup_SortedMap_set; [done|]. by apply Hdist.
Qed.

Lemma has_set m h k v x :
  two_arrays m → equal_length m h →
  has m x (set m k v h) = strict_eq k x || has m x h.
Proof.
  intros Hne Hlen. rewrite !has_found_arrays, arrays_set by done.
  unfold set_arrays, arrays. destruct (constructor m).
  - apply found_UnsortedMap_set.
  - by apply found_SortedMap_set.
Qed.

(** X1.  In a [SortedMap] whose keys and values are two arrays of the same
    length and whose keys are distinct, after [set(k, v)]: [get(x)] is [v]
    when [k === x] and what it was otherwise, and [has(x)] is true when
    [k === x] and what it was otherwise. *)
Theorem X1_SortedMap_get_has_after_set m h k v x :
  constructor m = SortedMap → two_arrays m →
  equal_length m h → distinct_keys (this_keys m h) →
  get m x (set m k v h) = (if strict_eq k x then Some v else get m x h) ∧
  has m x (set m k v h) = strict_eq k x || has m x h.
Proof.
  intros Hcls Hne Hlen Hdist. split.
  - apply get_set; [done|done|]. by intros _ _.
  - by apply has_set.
Qed.

(** Calls of [set] with other keys do not change what [get] and [has] say
    of [x], in either class. *)
Lemma get_has_sets_other_keys m h ops x :
  two_arrays m → equal_length m h →
  Forall (λ op : E * E, strict_eq op.1 x = false) ops →
  get m x (sets m ops h) = get m x h ∧ has m x (sets m ops h) = has m x h.
Proof.
  intros Hne Hlen Hops. revert h Hlen.
  induction Hops as [|op ops Hop _ IH]; intros h Hlen; [done|].
  change (sets m (op :: ops) h) with (sets m ops (set m op.1 op.2 h)).
  destruct (IH (set m op.1 op.2 h)) as [-> ->].
  { by apply equal_length_set. }
  rewrite get_set, has_set, Hop by (done || congruence). done.
Qed.

(** X2.  In a [SortedMap], after its constructor and any calls of [set],
    [get(k)] is the value of the latest call whose key is [=== k] and
    [has(k)] is true; when no call had such a key, [get(k)] is [undefined]
    and [has(k)] is false. *)
Theorem X2_SortedMap_get_has_after_sets
    (keys values : option loc) (h0 : heap E) (ops : list (E * E)) k :
  let '(m, h) := new SortedMap keys values h0 in
  (∀ ops1 k' v ops2,
     ops = ops1 ++ (k', v) :: ops2 →
     strict_eq k' k = true →
     Forall (λ op, strict_eq op.1 k = false) ops2 →
     get m k (sets m ops h) = Some v ∧ has m k (sets m ops h) = true) ∧
  (Forall (λ op, strict_eq op.1 k = false) ops →
     get m k (sets m ops h) = None ∧ has m k (sets m ops h) = false).
Proof.
  unfold new.
  pose proof (SortedMap_constructor_empty keys values h0) as Hnew.
  destruct (SortedMap_constructor keys values h0) as [m h].
  destruct Hnew as (Hcls & Harr & Hne & _). injection Harr as Hks Hvs.
  assert (equal_length m h) as Hlen.
  { unfold equal_length. by rewrite Hks, Hvs. }
  assert (distinct_keys (this_keys m h)) as Hdist.
  { rewrite Hks. apply distinct_keys_nil. }
  split.
  - intros ops1 k' v ops2 -> Hk Hops2. rewrite sets_app.
    change (sets m ((k', v) :: ops2) (sets m ops1 h))
      with (sets m ops2 (set m k' v (sets m ops1 h))).
    destruct (SortedMap_sets_invariant m h ops1 Hcls Hne Hlen Hdist)
      as [Hlen1 Hdist1].
    destruct (get_has_sets_other_keys m (set m k' v (sets m ops1 h)) ops2 k)
      as [-> ->]; [done|by apply equal_length_set|done|].
    rewrite get_set, has_set, Hk by (done || by intros _ _). done.
  - intros Hops.
    destruct (get_has_sets_other_keys m h ops k Hne Hlen Hops) as [-> ->].
    by rewrite get_firstIndex, has_firstIndex, Hks.
Qed.

(** After [set(k, v)] with a key that is [===] itself, [get(k)] is [v] and
    so [upsert] has stored what its callback returned. *)
Lemma get_upsert m h k (f : option E → E) :
  strict_eq k k = true → two_arrays m → equal_length m h →
  (constructor m = SortedMap → distinct_keys (this_keys m h)) →
  get m k (upsert m k f h) = Some (f (get m k h)).
Proof.
  intros Hk Hne Hlen Hdist. unfold upsert.
  rewrite get_set, Hk; [done|done|done|]. intros Hcls _. by apply Hdist.
Qed.

(** X3.  [upsert] then [get]: for a key that is [===] itself, in a
    container whose keys and values are two arrays of the same length (and,
    in a [SortedMap], whose keys are distinct), [get(k)] after
    [upsert(k, f)] is [f] of what [get(k)] was, and [has(k)] is true. *)
Theorem X3_get_after_upsert m h k (f : option E → E) :
  strict_eq k k = true → two_arrays m → equal_length m h →
  (constructor m = SortedMap → distinct_keys (this_keys m h)) →
  get m k (upsert m k f h) = Some (f (get m k h)) ∧
  has m k (upsert m k f h) = true.
Proof.
  intros Hk Hne Hlen Hdist. split; [by apply get_upsert|].
  unfold upsert. by rewrite has_set, Hk.
Qed.

(** The second of two calls of [set] with strictly equal keys decides. *)
Lemma set_over m h k k' v v' :
  strict_eq k k' = true → two_arrays m → equal_length m h →
  (constructor m = SortedMap → distinct_keys (this_keys m h)) →
  set m k' v' (set m k v h) = set m k' v' h.
Proof.
  intros Hk Hne Hlen Hdist.
  rewrite (set_store m k' v' (set m k v h)), arrays_set by done.
  assert (set_arrays (constructor m)
            (set_arrays (constructor m) (arrays m h) k v) k' v'
          = set_arrays (constructor m) (arrays m h) k' v') as ->.
  { unfold set_arrays, arrays. destruct (constructor m).
    - by apply UnsortedMap_set_over.
    - apply SortedMap_set_over; [done|done|by apply Hdist]. }
  rewrite (set_store m k v h), (set_store m k' v' h) by done.
  by apply store_over.
Qed.

(** X4.  The last write wins: for strictly equal keys [k === k'], in a
    container whose keys and values are two arrays of the same length (and,
    in a [SortedMap], whose keys are distinct), [set(k, v)] followed by
    [set(k', v')] leaves the container, and the whole store, as
    [set(k', v')] alone does. *)
Theorem X4_set_after_set m h k k' v v' :
  strict_eq k k' = true → two_arrays m → equal_length m h →
  (constructor m = SortedMap → distinct_keys (this_keys m h)) →
  set m k' v' (set m k v h) = set m k' v' h.
Proof. intros Hk Hne Hlen Hdist. by apply set_over. Qed.

(** X8.  Two calls of [upsert] on a key that is [===] itself compose: in a
    container whose keys and values are two arrays of the same length (and,
    in a [SortedMap], whose keys are distinct), [upsert(k, f)] followed by
    [upsert(k, g)] leaves the store as one [upsert] whose callback applies
    [f] and then [g]. *)
Theorem X8_upsert_after_upsert m h k (f g : option E → E) :
  strict_eq k k = true → two_arrays m → equal_length m h →
  (constructor m = SortedMap → distinct_keys (this_keys m h)) →
  upsert m k g (upsert m k f h) = upsert m k (λ o, g (Some (f o))) h.
Proof.
  intros Hk Hne Hlen Hdist.
  unfold upsert at 1. rewrite (get_upsert m h k f Hk Hne Hlen Hdist).
  unfold upsert. by apply set_over.
Qed.

(** [set] keeps the keys distinct, and so do any calls of it. *)
Lemma distinct_keys_set m h k v :
  two_arrays m → equal_length m h → distinct_keys (this_keys m h) →
  distinct_keys (this_keys m (set m k v h)).
Proof.
  intros Hne Hlen Hdist.
  change (this_keys m (set m k v h)) with (arrays m (set m k v h)).1.
  rewrite arrays_set by done. unfold set_arrays, arrays.
  destruct (constructor m).
  - by apply distinct_keys_UnsortedMap_set.
  - by apply distinct_keys_SortedMap_set.
Qed.

Lemma sets_keep_distinct m h (ops : list (E * E)) :
  two_arrays m → equal_length m h → distinct_keys (this_keys m h) →
  distinct_keys (this_keys m (sets m ops h)) ∧ equal_length m (sets m ops h).
Proof.
  intros Hne. revert h.
  induction ops as [|op ops IH]; intros h Hlen Hdist; [done|].
  change (sets m (op :: ops) h) with (sets m ops (set m op.1 op.2 h)).
  apply IH; [by apply equal_length_set|by apply distinct_keys_set].
Qed.

(** X5.  Keys stay unique: in a container of either class whose keys and
    values are two arrays of the same length and in which no two stored
    keys are strictly equal, no two stored keys are strictly equal after
    any calls of [set] (and the two arrays still have the same length). *)
Theorem X5_keys_stay_distinct m h (ops : list (E * E)) :
  two_arrays m → equal_length m h → distinct_keys (this_keys m h) →
  distinct_keys (this_keys m (sets m ops h)) ∧ equal_length m (sets m ops h).
Proof. intros Hne Hlen Hdist. by apply sets_keep_distinct. Qed.

(** X6.  In a container whose keys and values are two arrays of the same
    length, [set] adds one entry when [has(key)] was false and none when it
    was true, in both classes: the number of keys grows by one or stays. *)
Theorem X6_set_adds_at_most_one_entry m h k v :
  two_arrays m → equal_length m h →
  length (this_keys m (set m k v h))
  = if has m k h then length (this_keys m h) else S (length (this_keys m h)).
Proof.
  intros Hne Hlen. rewrite has_firstIndex.
  change (this_keys m (set m k v h)) with (arrays m (set m k v h)).1.
  rewrite arrays_set by done. unfold set_arrays, arrays.
  destruct (constructor m).
  - destruct (firstIndex (this_keys m h) k) as [i|] eqn:Hi.
    + rewrite (UnsortedMap_set_found _ _ _ _ _ Hi). simpl.
      by rewrite length_insert.
    + rewrite (UnsortedMap_set_missing _ _ _ _ Hi). simpl.
      rewrite length_app. simpl. lia.
  - rewrite length_keys_SortedMap_set by done.
    by destruct (firstIndex (this_keys m h) k).
Qed.

(** X7.  Strictly equal keys are one key: when [k === k'], [get] and [has]
    answer alike for [k] and [k'] (so for [0] and [-0]). *)
Theorem X7_strictly_equal_keys_are_one_key m h k k' :
  strict_eq k k' = true →
  get m k h = get m k' h ∧ has m k h = has m k' h.
Proof.
  intros Hk. rewrite !get_firstIndex, !has_firstIndex.
  by rewrite (firstIndex_equiv _ k k' Hk).
Qed.

(** X15.  In a container of either class with distinct keys, a key that is
    [===] itself and is stored at index [i] is found, and [get] returns
    what the values hold at index [i]. *)
Theorem X15_get_reads_the_value_beside_the_key m h i k :
  strict_eq k k = true → distinct_keys (this_keys m h) →
  slot (this_keys m h) i = Some k →
  has m k h = true ∧ get m k h = slot (this_values m h) i.
Proof.
  intros Hk Hdist Hi.
  assert (this_keys m h !! i = Some (Some k)) as Hi'.
  { unfold slot in Hi. destruct (this_keys m h !! i) as [[k'|]|]; try done.
    simpl in Hi. congruence. }
  rewrite has_firstIndex, get_firstIndex.
  destruct (firstIndex (this_keys m h) k) as [j|] eqn:Hj.
  - destruct (firstIndex_Some _ _ _ Hj) as [(s & Hs & Hsk) _].
    destruct s as [k'|]; [|done]. simpl in Hsk.
    by rewrite (Hdist j i k' k Hs Hi' Hsk).
  - rewrite firstIndex_None in Hj. specialize (Hj i _ Hi'). simpl in Hj.
    congruence.
Qed.
End SetLaws.

(** * Further properties of [map] *)

Section MapResult.
Context {E : Type} `{StrictEq E} `{Number E}.
Implicit Types (m r : object) (h : heap E) (k v : E).

(** X9.  [get] and [has] on the result of [map], for an [UnsortedMap]:
    [has] answers on the result as on the receiver; [get] on the result is
    [undefined] for a key the receiver does not have, and for a key it has,
    it is the callback applied to the stored key (one that is [===] the key
    asked for) and to the receiver's value. *)
Theorem X9_get_after_map m (f : E → option E → E) h k :
  constructor m = UnsortedMap →
  let '(r, h') := map m f h in
  has r k h' = has m k h ∧
  (has m k h = false → get r k h' = None) ∧
  (has m k h = true →
   ∃ key, strict_eq key k = true ∧ get r k h' = Some (f key (get m k h))).
Proof.
  intros Hcls. pose proof (map_UnsortedMap m f h Hcls) as Hmap.
  destruct (map m f h) as [r h']. destruct Hmap as (_ & Hks & Hvs).
  rewrite !has_firstIndex, !get_firstIndex, Hks, Hvs.
  destruct (firstIndex (this_keys m h) k) as [i|] eqn:Hi.
  - split; [done|]. split; [done|]. intros _.
    destruct (firstIndex_Some _ _ _ Hi) as [(s & Hs & Hk) _].
    destruct s as [key|]; [|done]. exists key. split; [done|].
    unfold slot at 1. by rewrite lookup_array_map, Hs.
  - split; [done|]. split; [done|]. done.
Qed.

(** Calls of [set] on one object leave the arrays of an object that shares
    none with it. *)
Lemma arrays_sets_other m r ops h :
  keys m ≠ keys r → keys m ≠ values r →
  values m ≠ keys r → values m ≠ values r →
  arrays m (sets r ops h) = arrays m h.
Proof.
  intros Hkk Hkv Hvk Hvv. unfold arrays, this_keys, this_values, read.
  by rewrite !sets_frame.
Qed.

(** X10.  The result of [map] shares no array with a receiver whose arrays
    exist in the store, in either class: calls of [set] on the result leave
    the receiver's keys and values as they are, and calls of [set] on the
    receiver leave the result's. *)
Theorem X10_map_result_is_independent
    m (f : E → option E → E) h (ops : list (E * E)) :
  allocated m h →
  let '(r, h') := map m f h in
  arrays m (sets r ops h') = arrays m h ∧
  arrays r (sets m ops h') = arrays r h'.
Proof.
  intros [Hk Hv].
  pose proof (map_result_fresh m f h) as Hfresh.
  destruct (map m f h) as [r h'].
  destruct Hfresh as (Hpre & _ & Hkr & Hvr).
  assert (keys m ≠ keys r) by (intros Heq; by rewrite Heq in Hk).
  assert (keys m ≠ values r) by (intros Heq; by rewrite Heq in Hk).
  assert (values m ≠ keys r) by (intros Heq; by rewrite Heq in Hv).
  assert (values m ≠ values r) by (intros Heq; by rewrite Heq in Hv).
  split.
  - rewrite arrays_sets_other by done. by apply preserves_arrays.
  - by apply arrays_sets_other.
Qed.
End MapResult.

(** * The arrays given to the constructor of [SortedMap] *)

Section ConstructorArguments.
Context {E : Type} `{StrictEq E} `{Number E}.
Implicit Types (h : heap E).

(** The store the constructor leaves holds, at an array that was there, what
    the loops left in it. *)
Lemma SortedMap_constructor_lookup (kr vr r : loc) h0 :
  r ∈ dom h0 →
  (new SortedMap (Some kr) (Some vr) h0).2 !! r
  = Some (read r (sort_outer kr vr (length (read vr h0)) 0 h0)).
Proof.
  intros Hr. unfold new. rewrite SortedMap_constructor_args.
  set (h1 := sort_outer kr vr (length (read vr h0)) 0 h0).
  assert (r ∈ dom h1) as Hr1 by by apply (dom_sort_outer kr vr _ 0 h0).
  pose proof (UnsortedMap_constructor_empty SortedMap h1) as Hnew.
  destruct (UnsortedMap_constructor SortedMap None None h1) as [m h].
  destruct Hnew as (_ & _ & Hpre & _). simpl.
  rewrite (Hpre r Hr1). by apply lookup_read.
Qed.

(** Two different arrays given to the constructor are, in the store it
    leaves, what [sort_arrays] makes of them. *)
Lemma SortedMap_constructor_arguments (kr vr : loc) h0 :
  kr ≠ vr → kr ∈ dom h0 → vr ∈ dom h0 →
  let kv := sort_arrays (read kr h0, read vr h0) in
  let h := (new SortedMap (Some kr) (Some vr) h0).2 in
  h !! kr = Some kv.1 ∧ h !! vr = Some kv.2.
Proof.
  intros Hne Hkr Hvr kv h. unfold h.
  rewrite !SortedMap_constructor_lookup by done.
  pose proof (sort_outer_two_arrays kr vr (length (read vr h0)) 0 h0 Hne)
    as Hsort.
  change (sort_outer_arrays _ _ _) with kv in Hsort.
  by rewrite <- Hsort.
Qed.

(** One array given for keys and for values is, in the store the
    constructor leaves, as it was. *)
Lemma SortedMap_constructor_one_array (r : loc) h0 :
  r ∈ dom h0 →
  (new SortedMap (Some r) (Some r) h0).2 !! r = Some (read r h0).
Proof.
  intros Hr. rewrite SortedMap_constructor_lookup by done.
  by rewrite sort_outer_one_array.
Qed.

(** X11.  [new SortedMap(keys, values)] with two arrays of the same length
    reorders the caller's arrays in place, a key together with its value:
    afterwards the two arrays have the lengths they had, and their pairs
    [(keys[i], values[i])] are a permutation of the pairs before the
    call. *)
Theorem X11_SortedMap_constructor_permutes_arguments
    (kr vr : loc) h0 (ks vs : array E) :
  h0 !! kr = Some ks → h0 !! vr = Some vs →
  length ks = length vs →
  let '(m, h) := new SortedMap (Some kr) (Some vr) h0 in
  ∃ ks' vs',
    h !! kr = Some ks' ∧ h !! vr = Some vs' ∧
    length ks' = length ks ∧ length vs' = length vs ∧
    zip ks' vs' ≡ₚ zip ks vs.
Proof.
  intros Hks Hvs Hlen.
  assert (kr ∈ dom h0) as Hkr by (apply elem_of_dom; eauto).
  assert (vr ∈ dom h0) as Hvr by (apply elem_of_dom; eauto).
  assert (read kr h0 = ks) as Hrk by (unfold read; by rewrite Hks).
  assert (read vr h0 = vs) as Hrv by (unfold read; by rewrite Hvs).
  destruct (decide (kr = vr)) as [->|Hne].
  - pose proof (SortedMap_constructor_one_array vr h0 Hvr) as Hone.
    destruct (new SortedMap (Some vr) (Some vr) h0) as [m h].
    simpl in Hone. rewrite Hrv in Hone.
    assert (ks = vs) as -> by congruence.
    by exists vs, vs.
  - pose proof (SortedMap_constructor_arguments kr vr h0 Hne Hkr Hvr)
      as Hargs.
    rewrite Hrk, Hrv in Hargs.
    pose proof (sort_arrays_permutation ks vs Hlen) as Hperm.
    destruct (new SortedMap (Some kr) (Some vr) h0) as [m h].
    simpl in Hargs. destruct (sort_arrays (ks, vs)) as [ks' vs'].
    exists ks', vs'. destruct Hargs as [-> ->].
    by destruct Hperm as (? & ? & ?).
Qed.

(** X19.  One array given to [new SortedMap] for keys and for values is left
    as it was: each exchange of two of its elements as values is undone by
    the exchange of the same two as keys. *)
Theorem X19_SortedMap_constructor_on_one_array (r : loc) h0 (a : array E) :
  h0 !! r = Some a →
  let '(m, h) := new SortedMap (Some r) (Some r) h0 in
  h !! r = Some a ∧ arrays m h = ([], []).
Proof.
  intros Ha.
  assert (r ∈ dom h0) as Hr by (apply elem_of_dom; eauto).
  pose proof (SortedMap_constructor_one_array r h0 Hr) as Hone.
  pose proof (SortedMap_constructor_empty (Some r) (Some r) h0) as Hnew.
  unfold new in *.
  destruct (SortedMap_constructor (Some r) (Some r) h0) as [m h].
  simpl in Hone. destruct Hnew as (_ & Harr & _).
  split; [|done]. rewrite Hone. unfold read. by rewrite Ha.
Qed.

(** X18.  An [UnsortedMap] whose keys and values are one array: [set(k, v)]
    with a key that [indexOf] does not find pushes [k] and then [v] onto the
    array; with a key found at index [i] it writes [k] and then [v] at
    index [i], so the array holds [v] where the key was. *)
Theorem X18_UnsortedMap_set_on_one_array (m : object) h (k v : E) :
  constructor m = UnsortedMap → keys m = values m →
  this_keys m (set m k v h)
  = match firstIndex (this_keys m h) k with
    | Some i => <[i := Some v]> (this_keys m h)
    | None => this_keys m h ++ [Some k; Some v]
    end.
Proof.
  intros Hcls Heq. unfold set. rewrite Hcls.
  unfold UnsortedMap_set, indexOf, this_keys, this_values.
  rewrite <- Heq.
  destruct (firstIndex (read (keys m) h) k) as [i|] eqn:Hi.
  - destruct (Z.eqb_spec (Z.of_nat i) (-1)); [lia|].
    rewrite Nat2Z.id, !read_store.
    pose proof (firstIndex_lt _ _ _ Hi) as Hlt.
    rewrite (assign_lt (read (keys m) h)) by done.
    rewrite assign_lt by by rewrite length_insert.
    by rewrite list_insert_insert_eq.
  - simpl. rewrite !read_store. unfold push. by rewrite <- app_assoc.
Qed.
End ConstructorArguments.

(** * Values that are numbers *)

Section SortedNumbers.
Implicit Types (m : object) (h : heap value) (k : value).

(** X12.  [new SortedMap(keys, values)] with an array of values, not the
    array of keys, in which every slot holds a number other than NaN sorts
    that array in place: afterwards it holds the same numbers, in another
    order, and each is [>=] every later one. *)
Theorem X12_SortedMap_constructor_sorts_arguments
    (kr vr : loc) h0 (l : list value) :
  kr ≠ vr → h0 !! vr = Some (arr l) → Forall number l →
  let '(m, h) := new SortedMap (Some kr) (Some vr) h0 in
  ∃ l', h !! vr = Some (arr l') ∧ l' ≡ₚ l ∧
    ∀ i j a b, i < j → l' !! i = Some a → l' !! j = Some b →
      js_ge a b = true.
Proof.
  intros Hne Hvs Hl.
  assert (vr ∈ dom h0) as Hvr by (apply elem_of_dom; eauto).
  pose proof (SortedMap_constructor_lookup kr vr vr h0 Hvr) as Hargs.
  pose proof (sort_outer_two_arrays kr vr (length (read vr h0)) 0 h0 Hne)
    as Hsort.
  change (sort_outer_arrays _ _ _)
    with (sort_arrays (read kr h0, read vr h0)) in Hsort.
  apply (f_equal snd) in Hsort. simpl in Hsort. rewrite Hsort in Hargs.
  assert (read vr h0 = arr l) as Hrv by (unfold read; by rewrite Hvs).
  rewrite Hrv in Hargs.
  destruct (sort_arrays_sorted number (read kr h0) l
              value_lt_ge number_not_lt_ge Hl) as (l' & Hl' & Hperm & Hsorted).
  destruct (new SortedMap (Some kr) (Some vr) h0) as [m h].
  simpl in Hargs. exists l'. by rewrite Hargs, Hl'.
Qed.

(** X13.  In a [SortedMap] whose keys and values are two arrays of the same
    length, [set(k, NaN)] puts the entry at index 0, in front of everything
    that is stored, after removing the entry that [k] had. *)
Theorem X13_NaN_goes_to_the_front m h k :
  constructor m = SortedMap → two_arrays m → equal_length m h →
  arrays m (set m k (Num NaN) h)
  = (Some k :: (remove_key (arrays m h) k).1,
     Some (Num NaN) :: (remove_key (arrays m h) k).2).
Proof.
  intros Hcls Hne Hlen. rewrite arrays_set, Hcls by done.
  unfold set_arrays, arrays.
  destruct (SortedMap_set_spec (this_keys m h) (this_values m h) k (Num NaN)
              Hlen) as (_ & p & _ & -> & _ & Hbefore).
  destruct Hbefore as [->|(p' & _ & Hgt)]; [done|].
  by rewrite slot_gt_Num_NaN in Hgt.
Qed.

(** X14.  When every value given to [set] is a number other than NaN, every
    value of a [SortedMap], after its constructor and any calls of [set],
    is [>=] every value at a greater index; the value at index 0 is a
    greatest one. *)
Theorem X14_earlier_values_are_not_smaller
    (keys values : option loc) h0 (ops : list (value * value)) :
  Forall (λ op, number op.2) ops →
  let '(m, h) := new SortedMap keys values h0 in
  ∀ i j a b, i < j →
    slot (this_values m (sets m ops h)) i = Some a →
    slot (this_values m (sets m ops h)) j = Some b →
    js_ge a b = true.
Proof.
  intros Hops.
  pose proof (descending_after_sets keys values h0 ops) as Hdesc.
  destruct (new SortedMap keys values h0) as [m h].
  intros i j a b Hij Ha Hb.
  eapply descending_pairwise; [|exact Hij|exact Ha|exact Hb].
  apply Hdesc. rewrite Forall_forall in Hops. intros x y Hx Hy.
  apply list_elem_of_fmap in Hx as (opx & -> & Hx).
  apply list_elem_of_fmap in Hy as (opy & -> & Hy).
  apply number_comparable; by apply Hops.
Qed.
End SortedNumbers.

(** * Where [set] puts an entry of a [SortedMap] *)

Section EntryPlace.
Context {E : Type} `{StrictEq E} `{NumberLaws E}.
Implicit Types (m : object) (h : heap E) (k v : E).

(** X16.  In a [SortedMap] whose keys and values are two arrays of the same
    length and whose values do not increase, [set(k, v)] first takes out
    the entry that [k] had, if any, and then puts [(k, v)] in what is left
    at the index [p] right behind the values greater than [v]: a value of
    what is left is in front of [p] exactly when it is [> v]. *)
Theorem X16_set_moves_the_entry_to_its_place m h k v :
  constructor m = SortedMap → two_arrays m → equal_length m h →
  descending (this_values m h) →
  ∃ p,
    arrays m (set m k v h)
    = (take p (remove_key (arrays m h) k).1
         ++ Some k :: drop p (remove_key (arrays m h) k).1,
       take p (remove_key (arrays m h) k).2
         ++ Some v :: drop p (remove_key (arrays m h) k).2) ∧
    ∀ j a, slot (remove_key (arrays m h) k).2 j = Some a →
      (j < p ↔ js_gt a v = true).
Proof.
  intros Hcls Hne Hlen Hdesc.
  assert (descending (remove_key (arrays m h) k).2) as Hdesc'.
  { unfold remove_key, arrays; simpl.
    destruct (firstIndex (this_keys m h) k); simpl; [|done].
    by apply descending_splice. }
  rewrite arrays_set, Hcls by done. unfold set_arrays.
  destruct (SortedMap_set_spec (this_keys m h) (this_values m h) k v Hlen)
    as (_ & p & Hp & Hset & Hafter & Hbefore).
  fold (arrays m h) in Hp, Hset, Hafter, Hbefore.
  exists p. split; [done|]. intros j a Ha. split.
  - intros Hj. destruct Hbefore as [->|(p' & -> & Hgt)]; [lia|].
    destruct (slot (remove_key (arrays m h) k).2 p') as [y|] eqn:Hy; [|done].
    simpl in Hgt. destruct (decide (j = p')) as [->|Hne']; [congruence|].
    eapply js_ge_gt_trans; [|exact Hgt].
    eapply (descending_pairwise _ j p'); [done|lia|done|done].
  - intros Hgt. destruct (decide (j < p)) as [|Hge]; [done|].
    specialize (Hafter j ltac:(lia)). rewrite Ha in Hafter. simpl in Hafter.
    congruence.
Qed.
End EntryPlace.

(** * Scenarios *)

(** Evaluate the constructor call of a scenario. *)
Ltac eval_new :=
  match goal with
  | |- context [new ?c ?a ?b ?h] =>
      let X := fresh "X" in
      set (X := new c a b h); vm_compute in X; subst X; cbv beta iota zeta
  end.

(** The two arrays of an object of a scenario are two arrays. *)
Ltac solve_two_arrays := unfold two_arrays; simpl; lia.

(** Scenario 2: [new SortedMap(["a","b","c"], [5,1,3]).get("a")] is
    [undefined].  The two arrays of the caller have been sorted in place. *)
Example SortedMap_of_three_is_empty :
  let h0 : heap value :=
    {[ 0 := arr [str "a"; str "b"; str "c"];
       1 := arr [Num 5; Num 1; Num 3]%float ]} in
  let '(m, h) := new SortedMap (Some 0) (Some 1) h0 in
  get m (str "a") h = None ∧
  h !! 0 = Some (arr [str "a"; str "c"; str "b"]) ∧
  h !! 1 = Some (arr [Num 5; Num 3; Num 1]%float).
Proof. cbv zeta. eval_new. vm_compute. done. Qed.

(** One array [a = []] passed for keys and for values of an [UnsortedMap]:
    [set(1, 2)] pushes the key and then the value onto it, [get(1)] reads
    the key back, and a second [set(1, 2)] finds the key at index 0 and
    writes key and value there. *)
Example UnsortedMap_on_one_array :
  let h0 : heap float := {[ 0 := [] ]} in
  let '(m, h) := new UnsortedMap (Some 0) (Some 0) h0 in
  let h1 := set m 1%float 2%float h in
  let h2 := set m 1%float 2%float h1 in
  h1 !! 0 = Some (arr [1; 2]%float) ∧ get m 1%float h1 = Some 1%float ∧
  h2 !! 0 = Some (arr [2; 2]%float).
Proof. cbv zeta. eval_new. vm_compute. done. Qed.

(** One array [a = [1, 3, 2]] passed for keys and for values of a
    [SortedMap]: every exchange of two values is undone by the exchange of
    the two keys, and the array is left as it was. *)
Example SortedMap_on_one_array :
  let h0 : heap float := {[ 0 := arr [1; 3; 2]%float ]} in
  let '(m, h) := new SortedMap (Some 0) (Some 0) h0 in
  h !! 0 = Some (arr [1; 3; 2]%float) ∧ arrays m h = ([], []).
Proof. cbv zeta. eval_new. vm_compute. done. Qed.



(** C6, as stated, fails.  A key that is NaN is never found, so
    [set(NaN, 1).set(NaN, 2)] does not update the entry in place: it adds a
    second one.  And on one array passed for keys and for values,
    [set(1, 2).set(2, 3)] finds the key 2 where the value 2 was written and
    leaves [[1, 3]]: the key 2 has no index. *)
Lemma C6_NaN_and_one_array_break_the_order :
  (let '(m, h) := new (E := float) UnsortedMap None None empty_heap in
   let h := sets m [(NaN, 1); (NaN, 2)]%float h in
   ¬ (this_keys m h = arr [NaN] ∧ this_values m h = arr [2]%float)) ∧
  (let '(m, h) := new (E := float) UnsortedMap (Some 0) (Some 0) {[ 0 := [] ]} in
   let h := sets m [(1, 2); (2, 3)]%float h in
   ¬ (this_keys m h = arr [1; 2]%float ∧ this_values m h = arr [2; 3]%float)).
Proof.
  split.
  - eval_new. intros [Hks _].
    apply (f_equal length) in Hks. vm_compute in Hks. discriminate.
  - eval_new. intros [Hks _].
    apply (f_equal (λ l, firstIndex l 2%float)) in Hks.
    vm_compute in Hks. discriminate.
Qed.

(** C6, as amended.  An [UnsortedMap] whose keys and values are two arrays
    keeps the order of insertion of the keys that [indexOf] finds: [set]
    puts a key that is not found at the end (a new key, and NaN every time)
    and writes a key that is found where it is; a key that is found keeps
    its index through any further calls of [set], and a key set for the
    first time later gets a greater index.
    [set("a",1).set("b",2).set("a",3)] on an empty [UnsortedMap] gives keys
    [["a","b"]] and values [[3,2]]. *)
Theorem C6_insertion_order_is_kept :
  (∀ (E : Type) (Q : StrictEq E) (N : Number E), StrictEqLaws E →
   ∀ (m : object) (h : heap E),
     constructor m = UnsortedMap → two_arrays m →
     (∀ k v, indexOf (this_keys m h) k = (-1)%Z →
        this_keys m (set m k v h) = this_keys m h ++ [Some k] ∧
        this_values m (set m k v h) = this_values m h ++ [Some v]) ∧
     (∀ k v i, indexOf (this_keys m h) k = Z.of_nat i →
        this_keys m (set m k v h) = <[i := Some k]> (this_keys m h) ∧
        this_values m (set m k v h) = assign (this_values m h) i (Some v)) ∧
     (∀ A i ops, indexOf (this_keys m h) A = Z.of_nat i →
        indexOf (this_keys m (sets m ops h)) A = Z.of_nat i) ∧
     (∀ A B i ops,
        indexOf (this_keys m h) A = Z.of_nat i →
        indexOf (this_keys m h) B = (-1)%Z →
        indexOf (this_keys m (sets m ops h)) B = (-1)%Z ∨
        (Z.of_nat i < indexOf (this_keys m (sets m ops h)) B)%Z)) ∧
  (let '(m, h) := new (E := value) UnsortedMap None None empty_heap in
   let h := sets m [(str "a", Num 1); (str "b", Num 2); (str "a", Num 3)]%float h in
   this_keys m h = arr [str "a"; str "b"] ∧
   this_values m h = arr [Num 3; Num 2]%float).
Proof.
  split.
  - intros E Q N L m h Hcls Hne. split; [|split; [|split]].
    + intros k v. by apply UnsortedMap_set_at_end.
    + intros k v i. by apply UnsortedMap_set_in_place.
    + intros A i ops. by apply indexOf_sets_found.
    + intros A B i ops HA HB.
      destruct (indexOf_sets_new m h ops B Hcls Hne HB) as [Hnone|Hlater];
        [by left|right].
      destruct (indexOf_inv _ _ _ HA) as [[? _]|(i' & Hi' & Hf)]; [lia|].
      apply Nat2Z.inj in Hi' as <-.
      pose proof (firstIndex_lt _ _ _ Hf). lia.
  - eval_new. vm_compute. done.
Qed.

(** C2, as stated, fails: after [set("a", NaN).set("b", 1)] the values are
    [[1, NaN]], and [1 >= NaN] is false. *)
Lemma C2_NaN_breaks_the_order :
  let '(m, h) := new (E := value) SortedMap None None empty_heap in
  ¬ descending
      (this_values m (sets m [(str "a", Num NaN); (str "b", Num 1%float)] h)).
Proof.
  eval_new. intros Hdesc.
  destruct (Hdesc 0) as (a & b & Ha & Hb & Hge).
  { vm_compute. lia. }
  vm_compute in Ha, Hb. injection Ha as <-. injection Hb as <-.
  vm_compute in Hge. discriminate.
Qed.

(** C2 at [set("x",5).set("y",9).set("z",9)]: no value is NaN. *)
Lemma C2_values_descend_without_NaN_witness :
  let ops := [(str "x", Num 5); (str "y", Num 9); (str "z", Num 9)]%float in
  Forall (λ op : value * value, number op.2) ops ∧
  (let '(m, h) := new SortedMap None None empty_heap in
   descending (this_values m (sets m ops h))).
Proof.
  intros ops.
  assert (Forall (λ op : value * value, number op.2) ops) as Hops
    by (repeat (constructor; [vm_compute; reflexivity|]); constructor).
  split; [exact Hops|].
  apply (C2_values_descend_without_NaN None None empty_heap ops Hops).
Defined.

(** C4 fails on a [SortedMap].  After [new SortedMap().set("a", 1)] the
    receiver has the key ["a"]; [map(f)] copies the keys, computes the new
    values and hands both to the constructor of [SortedMap], which sorts
    them and calls [super()] without them: the result is an empty
    [SortedMap], with no keys, and [get("a")] on it is [undefined]. *)
Theorem C4_map_of_SortedMap_loses_the_keys :
  let '(m, h) := new (E := value) SortedMap None None empty_heap in
  let h := set m (str "a") (Num 1%float) h in
  let f := λ (_ : value) (v : option value), increment v in
  this_keys m h = arr [str "a"] ∧
  (let '(r, h') := map m f h in
   constructor r = SortedMap ∧ this_keys r h' = [] ∧ this_values r h' = [] ∧
   get r (str "a") h' = None) ∧
  ¬ map_keeps_keys m f h.
Proof.
  eval_new. unfold map_keeps_keys.
  match goal with
  | |- context [map ?m ?f ?h] =>
      let X := fresh "X" in
      set (X := map m f h); vm_compute in X; subst X; cbv beta iota zeta
  end.
  split; [vm_compute; reflexivity|]. split; [vm_compute; by repeat split|].
  intros (_ & _ & Hks & _).
  apply (f_equal length) in Hks. vm_compute in Hks. discriminate.
Qed.

(** C5, as stated, fails.  For the key NaN: after [set(NaN, 1)], [get(NaN)]
    is [undefined] and [has(NaN)] is false.  And on one array [a = []]
    passed for keys and for values: after [set(1, 2)], [get(1)] is 1, the
    key itself. *)
Lemma C5_NaN_and_one_array_break_get :
  (let '(m, h) := new (E := float) UnsortedMap None None empty_heap in
   let h := set m NaN 1%float h in
   ¬ (get m NaN h = Some 1%float ∧ has m NaN h = true)) ∧
  (let '(m, h) := new (E := float) UnsortedMap (Some 0) (Some 0) {[ 0 := [] ]} in
   let h := set m 1%float 2%float h in
   ¬ (get m 1%float h = Some 2%float ∧ has m 1%float h = true)).
Proof.
  split.
  - eval_new. intros [Hget _]. vm_compute in Hget. discriminate.
  - eval_new. intros [Hget _].
    apply (f_equal (λ o, slot_is 2%float o)) in Hget.
    vm_compute in Hget. discriminate.
Qed.

(** C5 at [set("a",1).set("b",2).set("a",3)] on an empty [UnsortedMap]:
    [get("a")] is 3, and ["c"] was never set. *)
Lemma C5_get_has_after_sets_witness :
  let '(m, h) := new (E := value) UnsortedMap None None empty_heap in
  let ops := [(str "a", Num 1); (str "b", Num 2); (str "a", Num 3)]%float in
  constructor m = UnsortedMap ∧ two_arrays m ∧ equal_length m h ∧
  get m (str "a") (sets m ops h) = Some (Num 3%float) ∧
  has m (str "a") (sets m ops h) = true ∧
  get m (str "c") (sets m ops h) = None ∧
  has m (str "c") (sets m ops h) = false.
Proof.
  eval_new.
  match goal with
  | |- constructor ?m = _ ∧ two_arrays ?m ∧ equal_length ?m ?h ∧ _ =>
      assert (two_arrays m) as Hne by solve_two_arrays;
      assert (equal_length m h) as Hlen by (vm_compute; reflexivity);
      pose proof (C5_get_has_after_sets m h
                    [(str "a", Num 1); (str "b", Num 2); (str "a", Num 3)]%float
                    (str "a") eq_refl Hne Hlen)
        as (Ha & _);
      pose proof (C5_get_has_after_sets m h
                    [(str "a", Num 1); (str "b", Num 2); (str "a", Num 3)]%float
                    (str "c") eq_refl Hne Hlen)
        as (_ & _ & Hc)
  end.
  split; [reflexivity|]. split; [exact Hne|]. split; [exact Hlen|].
  destruct (Ha [(str "a", Num 1); (str "b", Num 2)]%float (str "a")
              (Num 3%float) [] eq_refl eq_refl (Forall_nil_2 _))
    as [Hget Hhas].
  split; [exact Hget|]. split; [exact Hhas|].
  apply Hc; [vm_compute; reflexivity|].
  repeat (constructor; [vm_compute; reflexivity|]). constructor.
Defined.

(** C8, as stated, fails.  For the key NaN, a second [set(NaN, 1)] adds a
    second entry.  And on one array [a = []] passed for keys and for
    values, [set(1, 2)] leaves [[1, 2]] and a second [set(1, 2)] leaves
    [[2, 2]]. *)
Lemma C8_NaN_and_one_array_are_set_twice :
  (let '(m, h) := new (E := float) UnsortedMap None None empty_heap in
   arrays m (set m NaN 1%float (set m NaN 1%float h))
   ≠ arrays m (set m NaN 1%float h)) ∧
  (let '(m, h) := new (E := float) UnsortedMap (Some 0) (Some 0) {[ 0 := [] ]} in
   arrays m (set m 1%float 2%float (set m 1%float 2%float h))
   ≠ arrays m (set m 1%float 2%float h)).
Proof.
  split.
  - eval_new. intros Heq.
    apply (f_equal (λ kv, length kv.1)) in Heq.
    vm_compute in Heq. discriminate.
  - eval_new. intros Heq.
    apply (f_equal (λ kv, firstIndex kv.1 1%float)) in Heq.
    vm_compute in Heq. discriminate.
Qed.

(** C8 at a [SortedMap] holding [y: 9, x: 5], with [set("y", 7)]. *)
Lemma C8_set_twice_is_set_once_witness :
  let '(m, h) := new (E := value) SortedMap None None empty_heap in
  let h' := sets m [(str "x", Num 5); (str "y", Num 9)]%float h in
  let k := str "y" in
  let v := Num 7%float in
  strict_eq k k = true ∧ two_arrays m ∧ equal_length m h' ∧
  (constructor m = SortedMap → distinct_keys (this_keys m h')) ∧
  set m k v (set m k v h') = set m k v h' ∧
  arrays m (set m k v (set m k v h')) = arrays m (set m k v h').
Proof.
  eval_new.
  match goal with
  | |- _ ∧ two_arrays ?m ∧ equal_length ?m (sets ?m ?ops ?h) ∧ _ =>
      assert (two_arrays m) as Hne by solve_two_arrays;
      assert (equal_length m h) as Hlen by (vm_compute; reflexivity);
      assert (distinct_keys (this_keys m h)) as Hdist
        by (replace (this_keys m h) with (@nil (option value))
              by (vm_compute; reflexivity);
            apply distinct_keys_nil);
      destruct (SortedMap_sets_invariant m h ops eq_refl Hne Hlen Hdist)
        as [Hlen' Hdist']
  end.
  split; [reflexivity|]. split; [exact Hne|]. split; [exact Hlen'|].
  split; [by intros _|].
  apply C8_set_twice_is_set_once;
    [reflexivity|exact Hne|exact Hlen'|by intros _].
Defined.

(** C10 at a [SortedMap] holding [y: 9, x: 5]. *)
Lemma C10_map_of_SortedMap_is_empty_witness :
  let '(m, h) := new (E := value) SortedMap None None empty_heap in
  let h := sets m [(str "x", Num 5); (str "y", Num 9)]%float h in
  let f := λ (_ : value) (v : option value), default (Num 0%float) v in
  constructor m = SortedMap ∧
  (let '(r, h') := map m f h in
   constructor r = SortedMap ∧ this_keys r h' = [] ∧ this_values r h' = [] ∧
   ∀ k, get r k h' = None ∧ has r k h' = false).
Proof.
  eval_new. split; [reflexivity|].
  apply C10_map_of_SortedMap_is_empty. reflexivity.
Defined.


(** C6 at an [UnsortedMap] holding [a: 1], with [set("b",2).set("a",3)]. *)
Lemma C6_insertion_order_is_kept_witness :
  let '(m, h) := new (E := value) UnsortedMap None None empty_heap in
  let h := sets m [(str "a", Num 1)]%float h in
  let ops := [(str "b", Num 2); (str "a", Num 3)]%float in
  constructor m = UnsortedMap ∧ two_arrays m ∧
  indexOf (this_keys m h) (str "a") = Z.of_nat 0 ∧
  indexOf (this_keys m h) (str "b") = (-1)%Z ∧
  indexOf (this_keys m (sets m ops h)) (str "a") = Z.of_nat 0 ∧
  (indexOf (this_keys m (sets m ops h)) (str "b") = (-1)%Z ∨
   (Z.of_nat 0 < indexOf (this_keys m (sets m ops h)) (str "b"))%Z).
Proof.
  eval_new.
  match goal with
  | |- constructor ?m = _ ∧ two_arrays ?m ∧
       indexOf (this_keys ?m ?h) _ = _ ∧ _ =>
      assert (two_arrays m) as Hne by solve_two_arrays;
      destruct (proj1 C6_insertion_order_is_kept value _ _ _ m h
                  eq_refl Hne) as (_ & _ & Hstay & Horder)
  end.
  split; [reflexivity|]. split; [exact Hne|].
  split; [vm_compute; reflexivity|].
  split; [vm_compute; reflexivity|]. split.
  - apply Hstay. vm_compute. reflexivity.
  - apply (Horder (str "a") (str "b") 0); vm_compute; reflexivity.
Defined.

(** * Instances of the further properties *)

(** The store after calls of [set] on a container that was created empty:
    keys and values are two arrays of the same length and the keys are
    distinct. *)
Ltac after_sets m h ops Hne Hlen Hdist :=
  let T := type of (this_keys m h) in
  assert (two_arrays m) as Hne by solve_two_arrays;
  assert (distinct_keys (this_keys m (sets m ops h)) ∧
          equal_length m (sets m ops h)) as [Hdist Hlen]
    by (apply sets_keep_distinct;
        [exact Hne
        |vm_compute; reflexivity
        |replace (this_keys m h) with ([] : T) by (vm_compute; reflexivity);
         apply distinct_keys_nil]).

(** X1 at a [SortedMap] holding [y: 9, x: 5], with [set("y", 7)] and the
    key ["x"]. *)
Lemma X1_SortedMap_get_has_after_set_witness :
  let '(m, h) := new (E := value) SortedMap None None empty_heap in
  let h' := sets m [(str "x", Num 5); (str "y", Num 9)]%float h in
  let v := Num 7%float in
  constructor m = SortedMap ∧ two_arrays m ∧ equal_length m h' ∧
  distinct_keys (this_keys m h') ∧
  get m (str "x") (set m (str "y") v h')
  = (if strict_eq (str "y") (str "x") then Some v else get m (str "x") h') ∧
  has m (str "x") (set m (str "y") v h')
  = strict_eq (str "y") (str "x") || has m (str "x") h'.
Proof.
  eval_new.
  match goal with
  | |- _ ∧ _ ∧ equal_length ?m (sets ?m ?ops ?h) ∧ _ =>
      after_sets m h ops Hne Hlen Hdist
  end.
  split; [reflexivity|]. split; [exact Hne|]. split; [exact Hlen|].
  split; [exact Hdist|].
  apply X1_SortedMap_get_has_after_set;
    [reflexivity|exact Hne|exact Hlen|exact Hdist].
Defined.

(** X2 at [set("x",5).set("y",9).set("x",7)] on an empty [SortedMap]:
    [get("x")] is 7, and ["z"] was never set. *)
Lemma X2_SortedMap_get_has_after_sets_witness :
  let '(m, h) := new (E := value) SortedMap None None empty_heap in
  let ops := [(str "x", Num 5); (str "y", Num 9); (str "x", Num 7)]%float in
  get m (str "x") (sets m ops h) = Some (Num 7%float) ∧
  has m (str "x") (sets m ops h) = true ∧
  get m (str "z") (sets m ops h) = None ∧
  has m (str "z") (sets m ops h) = false.
Proof.
  pose proof (X2_SortedMap_get_has_after_sets (E := value)
                None None empty_heap
                [(str "x", Num 5); (str "y", Num 9); (str "x", Num 7)]%float
                (str "x")) as Hx.
  pose proof (X2_SortedMap_get_has_after_sets (E := value)
                None None empty_heap
                [(str "x", Num 5); (str "y", Num 9); (str "x", Num 7)]%float
                (str "z")) as Hz.
  destruct (new (E := value) SortedMap None None empty_heap) as [m h].
  destruct Hx as [Hx _]. destruct Hz as [_ Hz].
  destruct (Hx [(str "x", Num 5); (str "y", Num 9)]%float (str "x")
              (Num 7%float) [] eq_refl eq_refl (Forall_nil_2 _))
    as [Hget Hhas].
  split; [exact Hget|]. split; [exact Hhas|].
  apply Hz. repeat (constructor; [vm_compute; reflexivity|]). constructor.
Defined.

(** X3 at a [SortedMap] holding [y: 9, x: 5], with [upsert] adding one to
    the value of ["x"]. *)
Lemma X3_get_after_upsert_witness :
  let '(m, h) := new (E := value) SortedMap None None empty_heap in
  let h' := sets m [(str "x", Num 5); (str "y", Num 9)]%float h in
  let k := str "x" in
  strict_eq k k = true ∧ two_arrays m ∧ equal_length m h' ∧
  (constructor m = SortedMap → distinct_keys (this_keys m h')) ∧
  get m k (upsert m k increment h') = Some (increment (get m k h')) ∧
  has m k (upsert m k increment h') = true.
Proof.
  eval_new.
  match goal with
  | |- _ ∧ _ ∧ equal_length ?m (sets ?m ?ops ?h) ∧ _ =>
      after_sets m h ops Hne Hlen Hdist;
      split; [reflexivity|]; split; [exact Hne|]; split; [exact Hlen|];
      split; [by intros _|];
      apply (X3_get_after_upsert m (sets m ops h) (str "x") increment);
        [reflexivity|exact Hne|exact Hlen|by intros _]
  end.
Defined.

(** X4 at an [UnsortedMap] with numbers as keys, holding [0: 1], with
    [set(0, 2)] and [set(-0, 3)]: the two zeros are strictly equal. *)
Lemma X4_set_after_set_witness :
  let '(m, h) := new (E := float) UnsortedMap None None empty_heap in
  let h' := sets m [(0, 1)]%float h in
  strict_eq 0%float (-0)%float = true ∧ two_arrays m ∧ equal_length m h' ∧
  (constructor m = SortedMap → distinct_keys (this_keys m h')) ∧
  set m (-0)%float 3%float (set m 0%float 2%float h')
  = set m (-0)%float 3%float h'.
Proof.
  eval_new.
  match goal with
  | |- _ ∧ _ ∧ equal_length ?m (sets ?m ?ops ?h) ∧ _ =>
      after_sets m h ops Hne Hlen Hdist
  end.
  split; [reflexivity|]. split; [exact Hne|]. split; [exact Hlen|].
  split; [by intros _|].
  apply X4_set_after_set; [reflexivity|exact Hne|exact Hlen|by intros _].
Defined.

(** X5 at an empty [UnsortedMap], with [set("a",1).set("b",2).set("a",3)]. *)
Lemma X5_keys_stay_distinct_witness :
  let '(m, h) := new (E := value) UnsortedMap None None empty_heap in
  let ops := [(str "a", Num 1); (str "b", Num 2); (str "a", Num 3)]%float in
  two_arrays m ∧ equal_length m h ∧ distinct_keys (this_keys m h) ∧
  distinct_keys (this_keys m (sets m ops h)) ∧ equal_length m (sets m ops h).
Proof.
  eval_new.
  match goal with
  | |- two_arrays ?m ∧ equal_length ?m ?h ∧ _ =>
      assert (two_arrays m) as Hne by solve_two_arrays;
      assert (equal_length m h) as Hlen by (vm_compute; reflexivity);
      assert (distinct_keys (this_keys m h)) as Hdist
        by (replace (this_keys m h) with ([] : array value)
              by (vm_compute; reflexivity);
            apply distinct_keys_nil)
  end.
  split; [exact Hne|]. split; [exact Hlen|]. split; [exact Hdist|].
  apply X5_keys_stay_distinct; [exact Hne|exact Hlen|exact Hdist].
Defined.

(** X6 at a [SortedMap] holding [y: 9, x: 5], with [set("z", 7)]. *)
Lemma X6_set_adds_at_most_one_entry_witness :
  let '(m, h) := new (E := value) SortedMap None None empty_heap in
  let h' := sets m [(str "x", Num 5); (str "y", Num 9)]%float h in
  let k := str "z" in
  two_arrays m ∧ equal_length m h' ∧
  length (this_keys m (set m k (Num 7%float) h'))
  = if has m k h' then length (this_keys m h')
    else S (length (this_keys m h')).
Proof.
  eval_new.
  match goal with
  | |- _ ∧ equal_length ?m (sets ?m ?ops ?h) ∧ _ =>
      after_sets m h ops Hne Hlen Hdist
  end.
  split; [exact Hne|]. split; [exact Hlen|].
  apply X6_set_adds_at_most_one_entry; [exact Hne|exact Hlen].
Defined.

(** X7 at an [UnsortedMap] with numbers as keys, holding [0: 1], and the
    keys [0] and [-0]. *)
Lemma X7_strictly_equal_keys_are_one_key_witness :
  let '(m, h) := new (E := float) UnsortedMap None None empty_heap in
  let h' := sets m [(0, 1)]%float h in
  strict_eq 0%float (-0)%float = true ∧
  get m 0%float h' = get m (-0)%float h' ∧
  has m 0%float h' = has m (-0)%float h'.
Proof.
  eval_new. split; [reflexivity|].
  apply X7_strictly_equal_keys_are_one_key. reflexivity.
Defined.

(** X8 at a [SortedMap] holding [y: 9, x: 5], with two calls of [upsert] on
    ["x"], adding one and doubling. *)
Lemma X8_upsert_after_upsert_witness :
  let '(m, h) := new (E := value) SortedMap None None empty_heap in
  let h' := sets m [(str "x", Num 5); (str "y", Num 9)]%float h in
  let k := str "x" in
  strict_eq k k = true ∧ two_arrays m ∧ equal_length m h' ∧
  (constructor m = SortedMap → distinct_keys (this_keys m h')) ∧
  upsert m k double (upsert m k increment h')
  = upsert m k (λ o, double (Some (increment o))) h'.
Proof.
  eval_new.
  match goal with
  | |- _ ∧ _ ∧ equal_length ?m (sets ?m ?ops ?h) ∧ _ =>
      after_sets m h ops Hne Hlen Hdist;
      split; [reflexivity|]; split; [exact Hne|]; split; [exact Hlen|];
      split; [by intros _|];
      apply (X8_upsert_after_upsert m (sets m ops h) (str "x")
               increment double);
        [reflexivity|exact Hne|exact Hlen|by intros _]
  end.
Defined.

(** X9 at an [UnsortedMap] holding [a: 1, b: 2], with [f] adding one, and
    the key ["b"]. *)
Lemma X9_get_after_map_witness :
  let '(m, h) := new (E := value) UnsortedMap None None empty_heap in
  let h := sets m [(str "a", Num 1); (str "b", Num 2)]%float h in
  let f := λ (_ : value) (v : option value), increment v in
  let k := str "b" in
  constructor m = UnsortedMap ∧
  (let '(r, h') := map m f h in
   has r k h' = has m k h ∧
   (has m k h = false → get r k h' = None) ∧
   (has m k h = true →
    ∃ key, strict_eq key k = true ∧ get r k h' = Some (f key (get m k h)))).
Proof.
  eval_new. split; [reflexivity|].
  match goal with
  | |- context [has ?m _ (sets ?m ?ops ?h)] =>
      apply (X9_get_after_map m (λ (_ : value) (v : option value), increment v)
               (sets m ops h) (str "b"))
  end.
  reflexivity.
Defined.

(** X10 at an [UnsortedMap] holding [a: 1, b: 2], with [f] adding one and
    the calls [set("a",7).set("c",8)]. *)
Lemma X10_map_result_is_independent_witness :
  let '(m, h) := new (E := value) UnsortedMap None None empty_heap in
  let h := sets m [(str "a", Num 1); (str "b", Num 2)]%float h in
  let f := λ (_ : value) (v : option value), increment v in
  let ops := [(str "a", Num 7); (str "c", Num 8)]%float in
  allocated m h ∧
  (let '(r, h') := map m f h in
   arrays m (sets r ops h') = arrays m h ∧
   arrays r (sets m ops h') = arrays r h').
Proof.
  eval_new. split.
  - split; apply elem_of_dom; eexists; vm_compute; reflexivity.
  - apply X10_map_result_is_independent.
    split; apply elem_of_dom; eexists; vm_compute; reflexivity.
Defined.

(** X11 at [new SortedMap(["a","b","c"], [5,1,3])]. *)
Lemma X11_SortedMap_constructor_permutes_arguments_witness :
  let ks := arr [str "a"; str "b"; str "c"] in
  let vs := arr [Num 5; Num 1; Num 3]%float in
  let h0 : heap value := {[ 0 := ks; 1 := vs ]} in
  h0 !! 0 = Some ks ∧ h0 !! 1 = Some vs ∧ length ks = length vs ∧
  (let '(m, h) := new SortedMap (Some 0) (Some 1) h0 in
   ∃ ks' vs',
     h !! 0 = Some ks' ∧ h !! 1 = Some vs' ∧
     length ks' = length ks ∧ length vs' = length vs ∧
     zip ks' vs' ≡ₚ zip ks vs).
Proof.
  intros ks vs h0.
  split; [vm_compute; reflexivity|]. split; [vm_compute; reflexivity|].
  split; [reflexivity|].
  apply (X11_SortedMap_constructor_permutes_arguments 0 1 h0 ks vs);
    [vm_compute; reflexivity|vm_compute; reflexivity|reflexivity].
Defined.

(** X12 at [new SortedMap(["a","b","c"], [5,1,3])]. *)
Lemma X12_SortedMap_constructor_sorts_arguments_witness :
  let l := [Num 5; Num 1; Num 3]%float in
  let h0 : heap value :=
    {[ 0 := arr [str "a"; str "b"; str "c"]; 1 := arr l ]} in
  0 ≠ 1 ∧ h0 !! 1 = Some (arr l) ∧ Forall number l ∧
  (let '(m, h) := new SortedMap (Some 0) (Some 1) h0 in
   ∃ l', h !! 1 = Some (arr l') ∧ l' ≡ₚ l ∧
     ∀ i j a b, i < j → l' !! i = Some a → l' !! j = Some b →
       js_ge a b = true).
Proof.
  intros l h0.
  assert (Forall number l) as Hl
    by (repeat (constructor; [vm_compute; reflexivity|]); constructor).
  split; [lia|]. split; [vm_compute; reflexivity|]. split; [exact Hl|].
  apply (X12_SortedMap_constructor_sorts_arguments 0 1 h0 l);
    [lia|vm_compute; reflexivity|exact Hl].
Defined.

(** X13 at a [SortedMap] holding [y: 9, x: 5], with [set("z", NaN)]. *)
Lemma X13_NaN_goes_to_the_front_witness :
  let '(m, h) := new (E := value) SortedMap None None empty_heap in
  let h' := sets m [(str "x", Num 5); (str "y", Num 9)]%float h in
  let k := str "z" in
  constructor m = SortedMap ∧ two_arrays m ∧ equal_length m h' ∧
  arrays m (set m k (Num NaN) h')
  = (Some k :: (remove_key (arrays m h') k).1,
     Some (Num NaN) :: (remove_key (arrays m h') k).2).
Proof.
  eval_new.
  match goal with
  | |- _ ∧ _ ∧ equal_length ?m (sets ?m ?ops ?h) ∧ _ =>
      after_sets m h ops Hne Hlen Hdist
  end.
  split; [reflexivity|]. split; [exact Hne|]. split; [exact Hlen|].
  apply X13_NaN_goes_to_the_front; [reflexivity|exact Hne|exact Hlen].
Defined.

(** X14 at [set("x",5).set("y",9).set("z",9)]: every value is a number
    other than NaN. *)
Lemma X14_earlier_values_are_not_smaller_witness :
  let ops := [(str "x", Num 5); (str "y", Num 9); (str "z", Num 9)]%float in
  Forall (λ op : value * value, number op.2) ops ∧
  (let '(m, h) := new SortedMap None None empty_heap in
   let h' := sets m ops h in
   ∀ i j a b, i < j →
     slot (this_values m h') i = Some a →
     slot (this_values m h') j = Some b →
     js_ge a b = true).
Proof.
  intros ops.
  assert (Forall (λ op : value * value, number op.2) ops) as Hops
    by (repeat (constructor; [vm_compute; reflexivity|]); constructor).
  split; [exact Hops|].
  apply (X14_earlier_values_are_not_smaller None None empty_heap ops Hops).
Defined.

(** X15 at an [UnsortedMap] holding [a: 1, b: 2], with the key ["b"] at
    index 1. *)
Lemma X15_get_reads_the_value_beside_the_key_witness :
  let '(m, h) := new (E := value) UnsortedMap None None empty_heap in
  let h' := sets m [(str "a", Num 1); (str "b", Num 2)]%float h in
  let k := str "b" in
  strict_eq k k = true ∧ distinct_keys (this_keys m h') ∧
  slot (this_keys m h') 1 = Some k ∧
  has m k h' = true ∧ get m k h' = slot (this_values m h') 1.
Proof.
  eval_new.
  match goal with
  | |- _ ∧ distinct_keys (this_keys ?m (sets ?m ?ops ?h)) ∧ _ =>
      after_sets m h ops Hne Hlen Hdist
  end.
  split; [reflexivity|]. split; [exact Hdist|].
  split; [vm_compute; reflexivity|].
  apply X15_get_reads_the_value_beside_the_key;
    [reflexivity|exact Hdist|vm_compute; reflexivity].
Defined.

(** X16 at a [SortedMap] holding [y: 9, z: 7, x: 5], with [set("x", 8)]. *)
Lemma X16_set_moves_the_entry_to_its_place_witness :
  let '(m, h) := new (E := value) SortedMap None None empty_heap in
  let h' := sets m [(str "x", Num 5); (str "y", Num 9); (str "z", Num 7)]%float h in
  let k := str "x" in
  let v := Num 8%float in
  constructor m = SortedMap ∧ two_arrays m ∧ equal_length m h' ∧
  descending (this_values m h') ∧
  ∃ p,
    arrays m (set m k v h')
    = (take p (remove_key (arrays m h') k).1
         ++ Some k :: drop p (remove_key (arrays m h') k).1,
       take p (remove_key (arrays m h') k).2
         ++ Some v :: drop p (remove_key (arrays m h') k).2) ∧
    ∀ j a, slot (remove_key (arrays m h') k).2 j = Some a →
      (j < p ↔ js_gt a v = true).
Proof.
  eval_new.
  match goal with
  | |- _ ∧ _ ∧ equal_length ?m (sets ?m ?ops ?h) ∧ _ =>
      after_sets m h ops Hne Hlen Hdist;
      assert (descending (this_values m (sets m ops h))) as Hdesc
  end.
  { intros i Hi. vm_compute in Hi.
    destruct i as [|[|i]];
      [exists (Num 9%float), (Num 7%float)
      |exists (Num 7%float), (Num 5%float)|lia];
      vm_compute; by repeat split. }
  split; [reflexivity|]. split; [exact Hne|]. split; [exact Hlen|].
  split; [exact Hdesc|].
  apply X16_set_moves_the_entry_to_its_place;
    [reflexivity|exact Hne|exact Hlen|exact Hdesc].
Defined.

(** X17 at an [UnsortedMap] holding [a: 1, b: 2], with [f] adding one. *)
Lemma X17_map_keeps_receiver_and_class_witness :
  let '(m, h) := new (E := value) UnsortedMap None None empty_heap in
  let h := sets m [(str "a", Num 1); (str "b", Num 2)]%float h in
  let f := λ (_ : value) (v : option value), increment v in
  allocated m h ∧
  (let '(r, h') := map m f h in
   arrays m h' = arrays m h ∧ constructor r = constructor m) ∧
  (constructor m = UnsortedMap → map_keeps_keys m f h).
Proof.
  eval_new.
  match goal with
  | |- allocated ?m ?h ∧ _ =>
      assert (allocated m h) as Halloc
        by (split; apply elem_of_dom; eexists; vm_compute; reflexivity);
      split; [exact Halloc|];
      apply (X17_map_keeps_receiver_and_class m
               (λ (_ : value) (v : option value), increment v) h Halloc)
  end.
Defined.

(** X18 at [new UnsortedMap(a, a)] with [a = []] and [set(1, 2)]: the array
    is [[1, 2]] afterwards. *)
Lemma X18_UnsortedMap_set_on_one_array_witness :
  let '(m, h) := new (E := float) UnsortedMap (Some 0) (Some 0) {[ 0 := [] ]} in
  constructor m = UnsortedMap ∧ keys m = values m ∧
  this_keys m (set m 1%float 2%float h)
  = match firstIndex (this_keys m h) 1%float with
    | Some i => <[i := Some 2%float]> (this_keys m h)
    | None => this_keys m h ++ [Some 1%float; Some 2%float]
    end.
Proof.
  eval_new. split; [reflexivity|]. split; [reflexivity|].
  apply X18_UnsortedMap_set_on_one_array; reflexivity.
Defined.

(** X19 at [new SortedMap(a, a)] with [a = [1, 3, 2]]. *)
Lemma X19_SortedMap_constructor_on_one_array_witness :
  let a := arr [1; 3; 2]%float in
  let h0 : heap float := {[ 0 := a ]} in
  h0 !! 0 = Some a ∧
  (let '(m, h) := new SortedMap (Some 0) (Some 0) h0 in
   h !! 0 = Some a ∧ arrays m h = ([], [])).
Proof.
  intros a h0. split; [vm_compute; reflexivity|].
  apply (X19_SortedMap_constructor_on_one_array 0 h0 a).
  vm_compute. reflexivity.
Defined.
